(** * LEMON [BinHeap]: an indexed binary heap with a cross-reference map

    Shallow embedding of [lemon/bin_heap.h] (class [BinHeap<PR, IM, CMP>]).

    - [std::vector<Pair> _data] is a [list (Item * Prio)]; slots are
      addressed by C++ [int]s, modelled as [Z].  Signed overflow is
      undefined in C++, and a vector with fewer than 2^30 entries never
      reaches it, so no wrap-around is modelled.
    - the item-int map [_iim] (concept [ReadWriteMap<Item,int>]) is a total
      function [Item -> Z] updated pointwise.
    - [_comp] is a boolean relation on priorities.
    - reading or writing [_data] out of range, and [pop_back] on an empty
      vector, are undefined behaviour in C++: the embedded operations
      return [None] there.  The two [while] loops carry a fuel argument
      that the entry points set high enough for every input. *)

From stdpp Require Import base decidable option list functions numbers sorting.
From Stdlib Require Import ZArith Lia.

Local Open Scope Z_scope.

(** [enum State { IN_HEAP = 0, PRE_HEAP = -1, POST_HEAP = -2 }] *)
Inductive State : Set := IN_HEAP | PRE_HEAP | POST_HEAP.

Definition State_to_int (st : State) : Z :=
  match st with IN_HEAP => 0 | PRE_HEAP => -1 | POST_HEAP => -2 end.

(** The cast [State(s)]; an [int] outside the enumeration has no value. *)
Definition State_of_int (s : Z) : option State :=
  if decide (s = 0) then Some IN_HEAP
  else if decide (s = -1) then Some PRE_HEAP
  else if decide (s = -2) then Some POST_HEAP
  else None.

#[global] Instance State_eq_dec : EqDecision State.
Proof. solve_decision. Defined.

(** What C++ asks of a [Compare]: a strict weak ordering.  Asymmetry and
    negative transitivity are enough, the rest follows. *)
Class StrictWeak {A : Type} (cmp : A → A → bool) : Prop := {
  cmp_asym : ∀ a b, cmp a b = true → cmp b a = false;
  cmp_negtrans : ∀ a b c, cmp a b = false → cmp b c = false → cmp a c = false
}.

Section BinHeap.

Context {Item Prio : Type} `{EqDecision Item}.

(** The comparison functor [_comp] of type [CMP]. *)
Variable CMP : Prio -> Prio -> bool.

(** [Pair()], the value-initialised pair that [_data.resize(n+1)] appends. *)
Variable Pair_default : Item * Prio.

Local Abbreviation Pair := (Item * Prio)%type.

Record BinHeap : Type := mkBinHeap {
  _data : list Pair;
  _iim : Item -> Z
}.

(** [_data[i]] as an rvalue. *)
Definition data_at (d : list Pair) (i : Z) : option Pair :=
  if decide (0 <= i) then d !! Z.to_nat i else None.

Definition size (h : BinHeap) : Z := Z.of_nat (length (_data h)).

Definition empty (h : BinHeap) : bool :=
  match _data h with [] => true | _ => false end.

Definition clear (h : BinHeap) : BinHeap := mkBinHeap [] (_iim h).

(** C++ [int] division truncates toward zero, hence [Z.quot]:
    [parent 0 = 0]. *)
Definition parent (i : Z) : Z := Z.quot (i - 1) 2.

Definition second_child (i : Z) : Z := 2 * i + 2.

Definition less (p1 p2 : Pair) : bool := CMP p1.2 p2.2.

(** [_iim.set(i, v)] *)
Definition iim_set (h : BinHeap) (i : Item) (v : Z) : BinHeap :=
  mkBinHeap (_data h) (<[i := v]> (_iim h)).

(** The two assignments of [move], without the bounds check. *)
Definition move_to (h : BinHeap) (p : Pair) (i : Z) : BinHeap :=
  mkBinHeap (<[Z.to_nat i := p]> (_data h)) (<[p.1 := i]> (_iim h)).

Definition move (h : BinHeap) (p : Pair) (i : Z) : option BinHeap :=
  if decide (0 <= i < size h) then Some (move_to h p i) else None.

Fixpoint bubble_up_loop (fuel : nat) (h : BinHeap) (hole : Z) (p : Pair)
  : option (BinHeap * Z) :=
  match fuel with
  | O => None
  | S fuel' =>
    let par := parent hole in
    if decide (0 < hole) then
      q ← data_at (_data h) par;
      if less p q then
        h1 ← move h q hole;
        bubble_up_loop fuel' h1 par p
      else
        h1 ← move h p hole; Some (h1, hole)
    else
      h1 ← move h p hole; Some (h1, hole)
  end.

Definition bubble_up (h : BinHeap) (hole : Z) (p : Pair)
  : option (BinHeap * Z) :=
  bubble_up_loop (S (Z.to_nat hole)) h hole p.

(** The child [bubble_down] looks at when both children exist:
    [if (less(_data[child-1], _data[child])) --child;] *)
Definition pick_child (l r : Pair) (child : Z) : Z :=
  if less l r then child - 1 else child.

Fixpoint bubble_down_loop (fuel : nat) (h : BinHeap) (hole : Z) (p : Pair)
  (length : Z) : option (BinHeap * Z) :=
  match fuel with
  | O => None
  | S fuel' =>
    let child := second_child hole in
    if decide (child < length) then
      l ← data_at (_data h) (child - 1);
      r ← data_at (_data h) child;
      let child := pick_child l r child in
      c ← data_at (_data h) child;
      if negb (less c p) then
        (* goto ok *)
        h1 ← move h p hole; Some (h1, hole)
      else
        h1 ← move h c hole;
        bubble_down_loop fuel' h1 child p length
    else
      let child := child - 1 in
      if decide (child < length) then
        c ← data_at (_data h) child;
        if less c p then
          h1 ← move h c hole;
          h2 ← move h1 p child; Some (h2, child)
        else
          h1 ← move h p hole; Some (h1, hole)
      else
        h1 ← move h p hole; Some (h1, hole)
  end.

Definition bubble_down (h : BinHeap) (hole : Z) (p : Pair) (length : Z)
  : option (BinHeap * Z) :=
  bubble_down_loop (S (Z.to_nat length)) h hole p length.

(** [_data.resize(n+1)] *)
Definition resize_plus_one (h : BinHeap) : BinHeap :=
  mkBinHeap (_data h ++ [Pair_default]) (_iim h).

(** [_data.pop_back()] *)
Definition pop_back (h : BinHeap) : option BinHeap :=
  match _data h with
  | [] => None
  | _ => Some (mkBinHeap (removelast (_data h)) (_iim h))
  end.

Definition push (h : BinHeap) (p : Pair) : option BinHeap :=
  let n := size h in
  fst <$> bubble_up (resize_plus_one h) n p.

Definition top (h : BinHeap) : option Item := fst <$> data_at (_data h) 0.

Definition prio (h : BinHeap) : option Prio := snd <$> data_at (_data h) 0.

Definition pop (h : BinHeap) : option BinHeap :=
  let n := size h - 1 in
  e ← data_at (_data h) 0;
  let h1 := iim_set h e.1 (State_to_int POST_HEAP) in
  h2 ← (if decide (n > 0) then
          last ← data_at (_data h1) n;
          fst <$> bubble_down h1 0 last n
        else Some h1);
  pop_back h2.

Definition erase (h : BinHeap) (i : Item) : option BinHeap :=
  let hh := _iim h i in
  let n := size h - 1 in
  e ← data_at (_data h) hh;
  let h1 := iim_set h e.1 (State_to_int POST_HEAP) in
  h2 ← (if decide (hh < n) then
          last ← data_at (_data h1) n;
          '(h', k) ← bubble_up h1 hh last;
          if decide (k = hh) then
            last' ← data_at (_data h') n;
            fst <$> bubble_down h' hh last' n
          else Some h'
        else Some h1);
  pop_back h2.

(** [Prio operator[](const Item &i) const] *)
Definition priorityOf (h : BinHeap) (i : Item) : option Prio :=
  let idx := _iim h i in
  snd <$> data_at (_data h) idx.

Definition set (h : BinHeap) (i : Item) (p : Prio) : option BinHeap :=
  let idx := _iim h i in
  if decide (idx < 0) then push h (i, p)
  else
    q ← data_at (_data h) idx;
    if CMP p q.2 then fst <$> bubble_up h idx (i, p)
    else fst <$> bubble_down h idx (i, p) (size h).

Definition decrease (h : BinHeap) (i : Item) (p : Prio) : option BinHeap :=
  let idx := _iim h i in
  fst <$> bubble_up h idx (i, p).

Definition increase (h : BinHeap) (i : Item) (p : Prio) : option BinHeap :=
  let idx := _iim h i in
  fst <$> bubble_down h idx (i, p) (size h).

(** [State state(const Item &i) const] *)
Definition state (h : BinHeap) (i : Item) : option State :=
  let s := _iim h i in
  let s := if decide (s >= 0) then 0 else s in
  State_of_int s.

(** [void state(const Item& i, State st)] *)
Definition set_state (h : BinHeap) (i : Item) (st : State) : option BinHeap :=
  match st with
  | POST_HEAP | PRE_HEAP =>
    h1 ← (if decide (state h i = Some IN_HEAP) then erase h i else Some h);
    Some (iim_set h1 i (State_to_int st))
  | IN_HEAP => Some h
  end.

Definition replace (h : BinHeap) (i j : Item) : option BinHeap :=
  let idx := _iim h i in
  let h1 := iim_set h i (_iim h j) in
  let h2 := iim_set h1 j idx in
  e ← data_at (_data h2) idx;
  Some (mkBinHeap (<[Z.to_nat idx := (j, e.2)]> (_data h2)) (_iim h2)).

(** ** Drivers: the public mutators as commands *)

Inductive Op : Type :=
| Push (i : Item) (p : Prio)
| Pop
| Erase (i : Item)
| SetPrio (i : Item) (p : Prio)
| Decrease (i : Item) (p : Prio)
| Increase (i : Item) (p : Prio)
| Replace (i j : Item)
| SetState (i : Item) (st : State)
| Clear.

Definition exec (o : Op) (h : BinHeap) : option BinHeap :=
  match o with
  | Push i p => push h (i, p)
  | Pop => pop h
  | Erase i => erase h i
  | SetPrio i p => set h i p
  | Decrease i p => decrease h i p
  | Increase i p => increase h i p
  | Replace i j => replace h i j
  | SetState i st => set_state h i st
  | Clear => Some (clear h)
  end.

(** The documented [\pre] of each member function. *)
Definition pre (h : BinHeap) (o : Op) : Prop :=
  match o with
  | Push i _ => _iim h i < 0
  | Pop => empty h = false
  | Erase i => state h i = Some IN_HEAP
  | SetPrio _ _ => True
  | Decrease i p =>
      state h i = Some IN_HEAP ∧ ∀ q, priorityOf h i = Some q → CMP q p = false
  | Increase i p =>
      state h i = Some IN_HEAP ∧ ∀ q, priorityOf h i = Some q → CMP p q = false
  | Replace i j => state h i = Some IN_HEAP ∧ state h j ≠ Some IN_HEAP
  | SetState _ _ => True
  | Clear => True
  end.

Fixpoint run (os : list Op) (h : BinHeap) : option BinHeap :=
  match os with
  | [] => Some h
  | o :: os' => h1 ← exec o h; run os' h1
  end.

(** A freshly constructed heap over a map that reads [PRE_HEAP] everywhere. *)
Definition init : BinHeap := mkBinHeap [] (λ _, State_to_int PRE_HEAP).

(** The heaps a client obeying the preconditions can produce from [init]
    without calling [clear]. *)
Inductive reachable : BinHeap → Prop :=
| reach_init : reachable init
| reach_step h o h' :
    reachable h → o ≠ Clear → pre h o → exec o h = Some h' → reachable h'.

(** [n] rounds of [top(); prio(); pop()], collecting what was read. *)
Fixpoint drain (n : nat) (h : BinHeap) : option (list Pair * BinHeap) :=
  match n with
  | O => Some ([], h)
  | S n' =>
    i ← top h;
    p ← prio h;
    h1 ← pop h;
    '(out, h2) ← drain n' h1;
    Some ((i, p) :: out, h2)
  end.

Fixpoint push_all (l : list Pair) (h : BinHeap) : option BinHeap :=
  match l with
  | [] => Some h
  | p :: l' => h1 ← push h p; push_all l' h1
  end.

(** ** Invariants *)

(** Invariant 2 on the first [len] slots: no entry compares less than its
    parent. *)
Definition heap_order_upto (d : list Pair) (len : Z) : Prop :=
  ∀ k e ep, 0 < k < len →
    data_at d k = Some e → data_at d (parent k) = Some ep →
    less e ep = false.

Definition heap_order (h : BinHeap) : Prop :=
  heap_order_upto (_data h) (size h).

(** Invariant 3 on the first [len] slots. *)
Definition coherent_upto (h : BinHeap) (len : Z) : Prop :=
  ∀ k e, 0 <= k < len → data_at (_data h) k = Some e → _iim h e.1 = k.

Definition coherent (h : BinHeap) : Prop := coherent_upto h (size h).

(** Invariant 4, the half that invariant 3 does not give: a non-negative
    index value points at a slot holding that very item. *)
Definition membership (h : BinHeap) : Prop :=
  ∀ j, 0 <= _iim h j → ∃ q, data_at (_data h) (_iim h j) = Some (j, q).

Definition Inv (h : BinHeap) : Prop := coherent h ∧ membership h.

(** Linear search of the backing array for an item's slot. *)
Fixpoint scan (d : list Pair) (i : Item) : option Prio :=
  match d with
  | [] => None
  | e :: d' => if decide (e.1 = i) then Some e.2 else scan d' i
  end.

(** ** Auxiliary predicates of the loop proofs *)

(** [c] is the slot [bubble_down] compares [p] with at [hole]: the picked
    one of a full pair of children, or the single left-over child. *)
Definition chosen (d : list Pair) (hole length c : Z) : Prop :=
  (second_child hole < length ∧
   ∃ l r, data_at d (second_child hole - 1) = Some l ∧
          data_at d (second_child hole) = Some r ∧
          c = pick_child l r (second_child hole))
  ∨ (second_child hole - 1 < length <= second_child hole ∧
     c = second_child hole - 1).

(** The state of a loop with its hole at [hole], against the state [h0]
    with its hole at [hole0] the loop started from; only the first [len]
    slots count.  In order: same length; hole in range; invariant 3 off the
    hole; an index value is as it was unless the item sits in a slot; the
    entries off the hole are the same ones; slots from [len] on are
    untouched. *)
Definition holed (len : Z) (h0 : BinHeap) (hole0 : Z) (h : BinHeap) (hole : Z)
  : Prop :=
  size h = size h0 ∧
  (0 <= hole < len ∧ len <= size h) ∧
  (∀ k e, 0 <= k < len → k ≠ hole →
     data_at (_data h) k = Some e → _iim h e.1 = k) ∧
  (∀ j, _iim h j = _iim h0 j ∨
     ∃ k e, (0 <= k < len ∧ k ≠ hole) ∧
            data_at (_data h) k = Some e ∧ e.1 = j) ∧
  (∀ e, (∃ k, (0 <= k < len ∧ k ≠ hole) ∧ data_at (_data h) k = Some e) ↔
        (∃ k, (0 <= k < len ∧ k ≠ hole0) ∧ data_at (_data h0) k = Some e)) ∧
  (∀ k, len <= k → data_at (_data h) k = data_at (_data h0) k).

(** What a loop leaves once [p] is written into the hole, at slot [k]. *)
Definition filled (len : Z) (h0 : BinHeap) (hole0 : Z) (p : Pair)
  (h' : BinHeap) (k : Z) : Prop :=
  size h' = size h0 ∧
  (0 <= k < len ∧ data_at (_data h') k = Some p) ∧
  coherent_upto h' len ∧
  (∀ j, _iim h' j = _iim h0 j ∨
     ∃ k e, 0 <= k < len ∧ data_at (_data h') k = Some e ∧ e.1 = j) ∧
  (∀ e, (∃ k, 0 <= k < len ∧ data_at (_data h') k = Some e) ↔
        (e = p ∨
         ∃ k, (0 <= k < len ∧ k ≠ hole0) ∧ data_at (_data h0) k = Some e)) ∧
  (∀ k, len <= k → data_at (_data h') k = data_at (_data h0) k).

(** No slot of [h] other than [hole], among the first [len], holds [i]. *)
Definition fresh_off (len : Z) (h : BinHeap) (hole : Z) (i : Item) : Prop :=
  ∀ k e, 0 <= k < len → k ≠ hole → data_at (_data h) k = Some e → e.1 ≠ i.

(** Invariant 2 around a hole: every parent/child pair that does not touch
    the hole is in order, and so is the hole's parent with each child of
    the hole. *)
Definition ho_hole (d : list Pair) (len hole : Z) : Prop :=
  (∀ k e ep, 0 < k < len → k ≠ hole → parent k ≠ hole →
     data_at d k = Some e → data_at d (parent k) = Some ep →
     less e ep = false) ∧
  (∀ k e eg, 0 < k < len → parent k = hole → 0 < hole →
     data_at d k = Some e → data_at d (parent hole) = Some eg →
     less e eg = false).

(** [p] may sit in the hole as far as the hole's parent is concerned. *)
Definition above_ok (d : list Pair) (hole : Z) (p : Pair) : Prop :=
  0 < hole → ∀ ep, data_at d (parent hole) = Some ep → less p ep = false.

(** [p] may sit in the hole as far as the hole's children are concerned. *)
Definition below_ok (d : list Pair) (len hole : Z) (p : Pair) : Prop :=
  ∀ k e, 0 < k < len → parent k = hole →
    data_at d k = Some e → less e p = false.

(** Item [j] sits in some slot of the backing array. *)
Definition occupies (h : BinHeap) (j : Item) : Prop :=
  ∃ k e, data_at (_data h) k = Some e ∧ e.1 = j.

(** [h'] is [h] without the entry [e] of slot [s]: one entry fewer, still
    coherent, the other entries all there, [e]'s item marked [POST_HEAP],
    and no index value changed except for items that sit in [h']. *)
Definition removed (h : BinHeap) (s : Z) (e : Pair) (h' : BinHeap) : Prop :=
  size h' = size h - 1 ∧
  coherent h' ∧
  (∀ x, (∃ k, data_at (_data h') k = Some x) ↔
        (∃ k, k ≠ s ∧ data_at (_data h) k = Some x)) ∧
  _iim h' e.1 = State_to_int POST_HEAP ∧
  (∀ j, j ≠ e.1 → _iim h' j = _iim h j ∨ occupies h' j).

(** [h'] is [h] with [p] stored in place of whatever slot [s] held (for
    [push], [s] is the slot past the end): still coherent, the other
    entries all there, and no index value changed except for items that
    sit in [h']. *)
Definition placed (h : BinHeap) (s : Z) (p : Pair) (h' : BinHeap) : Prop :=
  coherent h' ∧
  (∀ x, (∃ k, data_at (_data h') k = Some x) ↔
        (x = p ∨ ∃ k, k ≠ s ∧ data_at (_data h) k = Some x)) ∧
  (∀ j, _iim h' j = _iim h j ∨ occupies h' j).

(** A command sequence that never calls [clear] and meets the precondition
    of each step in the heap the steps before it leave. *)
Fixpoint run_ok (os : list Op) (h : BinHeap) : Prop :=
  match os with
  | [] => True
  | o :: os' =>
    o ≠ Clear ∧ pre h o ∧ ∀ h1, exec o h = Some h1 → run_ok os' h1
  end.

(** Non-decreasing under [CMP]: the later priority never compares less. *)
Definition prio_le (a b : Prio) : Prop := CMP b a = false.

(** The same client, not knowing the direction of a change: every
    [decrease] and [increase] becomes a [set]. *)
Definition via_set (o : Op) : Op :=
  match o with
  | Decrease i p | Increase i p => SetPrio i p
  | _ => o
  end.

(** The order in which [n] pops deliver the entries. *)
Definition pop_sequence (n : nat) (h : BinHeap) : option (list Pair) :=
  fst <$> drain n h.

(** The tie-break as the specification words it: the right child only when
    it strictly precedes the left one, the left child on a tie. *)
Definition left_on_tie (l r : Pair) (child : Z) : Prop :=
  (pick_child l r child = child → less r l = true) ∧
  (less l r = false → less r l = false → pick_child l r child = child - 1).

(** ** Further drivers and predicates *)

(** The only negative values [BinHeap] ever writes into the map. *)
Definition sentinel (h : BinHeap) : Prop :=
  ∀ j, _iim h j < 0 →
    _iim h j = State_to_int PRE_HEAP ∨ _iim h j = State_to_int POST_HEAP.

(** The manual clearing the state setter is documented for: one call of
    [state(i, st)] per listed item. *)
Fixpoint reset_all (l : list Item) (st : State) (h : BinHeap)
  : option BinHeap :=
  match l with
  | [] => Some h
  | i :: l' => h1 ← set_state h i st; reset_all l' st h1
  end.

(** * Supporting lemmas *)

Arguments State_to_int : simpl never.

(** Side conditions on slots: already there, or linear arithmetic. *)
Local Ltac slot := solve [done | lia].

(** ** Array access *)

Lemma data_at_range (d : list Pair) k e :
  data_at d k = Some e → 0 <= k < Z.of_nat (length d).
Proof.
  unfold data_at. case_decide; [|done].
  intros Hk%lookup_lt_Some. lia.
Qed.

Lemma data_at_is_Some (d : list Pair) k :
  0 <= k < Z.of_nat (length d) → ∃ e, data_at d k = Some e.
Proof.
  intros Hk. unfold data_at. case_decide; [|lia].
  apply lookup_lt_is_Some_2. lia.
Qed.

Lemma data_at_insert (d : list Pair) i x k :
  0 <= i < Z.of_nat (length d) →
  data_at (<[Z.to_nat i := x]> d) k = if decide (k = i) then Some x else data_at d k.
Proof.
  intros Hi. unfold data_at. case_decide as Hk.
  - case_decide as Hki.
    + subst k. apply list_lookup_insert_eq. lia.
    + apply list_lookup_insert_ne. lia.
  - case_decide; [lia | done].
Qed.

Lemma data_at_snoc (d : list Pair) x k :
  data_at (d ++ [x]) k =
  if decide (k = Z.of_nat (length d)) then Some x else data_at d k.
Proof.
  unfold data_at. case_decide as Hk.
  - case_decide as Hkl.
    + subst k. rewrite Nat2Z.id. apply list_lookup_middle. done.
    + destruct (decide (k < Z.of_nat (length d))).
      * apply lookup_app_l. lia.
      * rewrite !lookup_ge_None_2; [done | lia |].
        rewrite length_app. simpl. lia.
  - case_decide; [lia | done].
Qed.

Lemma data_at_removelast (d : list Pair) k :
  data_at (removelast d) k =
  if decide (k < Z.of_nat (length d) - 1) then data_at d k else None.
Proof.
  destruct (decide (d = [])) as [->|Hne].
  { simpl. case_decide; [|by unfold data_at; case_decide].
    unfold data_at. case_decide; [|done]. simpl in *. lia. }
  destruct (exists_last Hne) as [d' [x ->]].
  rewrite removelast_last, length_app, data_at_snoc. simpl.
  destruct (decide (k < Z.of_nat (length d' + 1) - 1)) as [Hk|Hk].
  - rewrite decide_False by lia. done.
  - unfold data_at. case_decide; [|done].
    apply lookup_ge_None_2. lia.
Qed.

(** ** Tree arithmetic *)

Lemma parent_spec k :
  0 < k → 0 <= parent k ∧ (k = 2 * parent k + 1 ∨ k = 2 * parent k + 2).
Proof.
  intros Hk. unfold parent. rewrite Z.quot_div_nonneg by lia.
  pose proof (Z.div_mod (k - 1) 2) as Hd.
  pose proof (Z.mod_pos_bound (k - 1) 2). lia.
Qed.

Lemma parent_unique k j :
  0 <= j → (k = 2 * j + 1 ∨ k = 2 * j + 2) → parent k = j.
Proof.
  intros Hj Hk. pose proof (parent_spec k). lia.
Qed.

Lemma parent_root : parent 0 = 0.
Proof. reflexivity. Qed.

(** ** Loop rules

    Both loops keep a hole: they copy an entry into the hole, the copied
    slot becomes the hole, and at the end [p] is written.  A rule states
    what an invariant [I] and a postcondition [Q] must satisfy; it also
    settles bounds and fuel once. *)

Lemma size_move_to h q i : size (move_to h q i) = size h.
Proof. unfold size, move_to. simpl. by rewrite length_insert. Qed.

Lemma move_in_range h q i :
  0 <= i < size h → move h q i = Some (move_to h q i).
Proof. intros Hi. unfold move. by case_decide. Qed.

Lemma bubble_up_loop_rule (p : Pair) (I Q : BinHeap → Z → Prop) :
  (∀ h hole, I h hole → 0 <= hole < size h) →
  (∀ h hole q, I h hole → 0 < hole →
     data_at (_data h) (parent hole) = Some q → less p q = true →
     I (move_to h q hole) (parent hole)) →
  (∀ h hole, I h hole →
     (0 < hole → ∃ q, data_at (_data h) (parent hole) = Some q ∧
                      less p q = false) →
     Q (move_to h p hole) hole) →
  ∀ fuel h hole, I h hole → (Z.to_nat hole < fuel)%nat →
    ∃ h' k, bubble_up_loop fuel h hole p = Some (h', k) ∧ Q h' k.
Proof.
  intros Hrange Hstep Hstop fuel.
  induction fuel as [|fuel IH]; intros h hole HI Hfuel; [lia|].
  pose proof (Hrange _ _ HI) as Hr.
  simpl. case_decide as Hpos.
  - pose proof (parent_spec hole Hpos) as [Hp0 Hp].
    destruct (data_at_is_Some (_data h) (parent hole)) as [q Hq].
    { unfold size in Hr. lia. }
    rewrite Hq. simpl. destruct (less p q) eqn:Hlt.
    + rewrite move_in_range by done. simpl.
      apply IH; [by eapply Hstep | lia].
    + rewrite move_in_range by done. simpl.
      eexists _, _. split; [done|]. apply Hstop; [done|]. eauto.
  - rewrite move_in_range by done. simpl.
    eexists _, _. split; [done|]. apply Hstop; [done|]. lia.
Qed.

Lemma chosen_child d hole length c :
  chosen d hole length c →
  (c = 2 * hole + 1 ∨ c = 2 * hole + 2) ∧ c < length.
Proof.
  unfold chosen, pick_child, second_child.
  intros [(Hl & l & r & _ & _ & ->) | (Hl & ->)]; [|lia].
  destruct (less l r); lia.
Qed.

Lemma bubble_down_loop_rule (p : Pair) (length : Z) (I Q : BinHeap → Z → Prop) :
  (∀ h hole, I h hole → 0 <= hole < size h ∧ length <= size h) →
  (∀ h hole c e, I h hole → chosen (_data h) hole length c →
     data_at (_data h) c = Some e → less e p = true →
     I (move_to h e hole) c) →
  (∀ h hole, I h hole →
     (∀ c e, chosen (_data h) hole length c →
             data_at (_data h) c = Some e → less e p = false) →
     Q (move_to h p hole) hole) →
  ∀ fuel h hole, I h hole → (Z.to_nat (length - hole) < fuel)%nat →
    ∃ h' k, bubble_down_loop fuel h hole p length = Some (h', k) ∧ Q h' k.
Proof.
  intros Hrange Hstep Hstop fuel.
  induction fuel as [|fuel IH]; intros h hole HI Hfuel; [lia|].
  pose proof (Hrange _ _ HI) as [Hr Hlen].
  simpl. case_decide as Hfull.
  - unfold second_child in Hfull.
    destruct (data_at_is_Some (_data h) (second_child hole - 1)) as [l Hl].
    { unfold size, second_child in *. lia. }
    destruct (data_at_is_Some (_data h) (second_child hole)) as [r Hr'].
    { unfold size, second_child in *. lia. }
    rewrite Hl, Hr'. simpl.
    assert (chosen (_data h) hole length (pick_child l r (second_child hole)))
      as Hch.
    { left. unfold second_child. split; [lia|]. eauto. }
    pose proof (chosen_child _ _ _ _ Hch) as [Hc Hclt].
    destruct (data_at_is_Some (_data h) (pick_child l r (second_child hole)))
      as [e He].
    { unfold size in *. lia. }
    rewrite He. simpl. destruct (less e p) eqn:Hlt; simpl.
    + rewrite move_in_range by done. simpl.
      apply IH; [by eapply Hstep | lia].
    + rewrite move_in_range by done. simpl.
      eexists _, _. split; [done|]. apply Hstop; [done|].
      intros c' e' Hch' He'.
      destruct Hch' as [(_ & l' & r' & Hl' & Hr'' & ->) | (? & _)];
        [|unfold second_child in *; lia].
      congruence.
  - case_decide as Hone.
    + destruct (data_at_is_Some (_data h) (second_child hole - 1)) as [e He].
      { unfold size, second_child in *. lia. }
      assert (chosen (_data h) hole length (second_child hole - 1)) as Hch.
      { right. unfold second_child in *. lia. }
      rewrite He. simpl. destruct (less e p) eqn:Hlt.
      * rewrite move_in_range by done. simpl.
        pose proof (Hstep _ _ _ _ HI Hch He Hlt) as HI'.
        pose proof (Hrange _ _ HI') as [Hr' _].
        rewrite move_in_range by done. simpl.
        eexists _, _. split; [done|]. apply Hstop; [done|].
        intros c' e' Hch' _.
        apply chosen_child in Hch'. unfold second_child in *. lia.
      * rewrite move_in_range by done. simpl.
        eexists _, _. split; [done|]. apply Hstop; [done|].
        intros c' e' Hch' He'.
        destruct Hch' as [(? & _) | (_ & ->)]; [lia|]. congruence.
    + rewrite move_in_range by done. simpl.
      eexists _, _. split; [done|]. apply Hstop; [done|].
      intros c' e' Hch' _.
      apply chosen_child in Hch'. unfold second_child in *. lia.
Qed.

(** ** Fuel is only a device

    More fuel never changes a result, and with every access in bounds the
    fuel handed over by [bubble_up] and [bubble_down] is enough. *)

Lemma bubble_up_loop_fuel f1 f2 h hole p r :
  bubble_up_loop f1 h hole p = Some r → (f1 <= f2)%nat →
  bubble_up_loop f2 h hole p = Some r.
Proof.
  revert f2 h hole. induction f1 as [|f1 IH]; intros f2 h hole; [done|].
  destruct f2 as [|f2]; [lia|]. simpl. intros Hr Hle.
  case_decide; [|done].
  destruct (data_at (_data h) (parent hole)) as [q|]; [|done]. simpl in *.
  destruct (less p q); [|done].
  destruct (move h q hole) as [h1|]; [|done]. simpl in *.
  apply IH; [done | lia].
Qed.

Lemma bubble_down_loop_fuel f1 f2 h hole p len r :
  bubble_down_loop f1 h hole p len = Some r → (f1 <= f2)%nat →
  bubble_down_loop f2 h hole p len = Some r.
Proof.
  revert f2 h hole. induction f1 as [|f1 IH]; intros f2 h hole; [done|].
  destruct f2 as [|f2]; [lia|]. simpl. intros Hr Hle.
  case_decide; [|done].
  destruct (data_at (_data h) (second_child hole - 1)) as [l|]; [|done].
  destruct (data_at (_data h) (second_child hole)) as [r'|]; [|done].
  simpl in *.
  destruct (data_at (_data h) (pick_child l r' (second_child hole)))
    as [c|]; [|done].
  simpl in *. destruct (less c p); [|done]. simpl in *.
  destruct (move h c hole) as [h1|]; [|done]. simpl in *.
  apply IH; [done | lia].
Qed.

Lemma bubble_up_returns h hole p :
  0 <= hole < size h → ∃ h' k, bubble_up h hole p = Some (h', k).
Proof.
  intros Hr.
  destruct (bubble_up_loop_rule p (λ h1 hole1, 0 <= hole1 < size h1)
              (λ _ _, True)) with (S (Z.to_nat hole)) h hole
    as (h' & k & Hup & _); try slot.
  - intros h1 hole1 q Hr1 Hpos _ _. rewrite size_move_to.
    pose proof (parent_spec hole1 Hpos). lia.
  - by exists h', k.
Qed.

Lemma bubble_down_returns h hole p len :
  0 <= hole < size h → len <= size h →
  ∃ h' k, bubble_down h hole p len = Some (h', k).
Proof.
  intros Hr Hlen.
  destruct (bubble_down_loop_rule p len
              (λ h1 hole1, 0 <= hole1 < size h1 ∧ len <= size h1)
              (λ _ _, True)) with (S (Z.to_nat len)) h hole
    as (h' & k & Hup & _); try slot.
  - intros h1 hole1 c e [Hr1 Hl1] Hch _ _. rewrite size_move_to.
    apply chosen_child in Hch. lia.
  - by exists h', k.
Qed.

(** ** Index coherence and contents through the loops *)

Lemma data_at_move_to h q i k :
  0 <= i < size h →
  data_at (_data (move_to h q i)) k =
  if decide (k = i) then Some q else data_at (_data h) k.
Proof. intros Hi. unfold move_to. simpl. by apply data_at_insert. Qed.

Lemma holed_start len h0 hole0 :
  0 <= hole0 < len → len <= size h0 →
  (∀ k e, 0 <= k < len → k ≠ hole0 →
     data_at (_data h0) k = Some e → _iim h0 e.1 = k) →
  holed len h0 hole0 h0 hole0.
Proof.
  intros Hh Hlen Hcoh. unfold holed.
  split_and!; try (done || lia); intros j; by left.
Qed.

Lemma holed_step len h0 hole0 h hole c e :
  holed len h0 hole0 h hole →
  0 <= c < len → c ≠ hole → data_at (_data h) c = Some e →
  holed len h0 hole0 (move_to h e hole) c.
Proof.
  intros (Hsz & [Hh Hlen] & Hcoh & Hfr & Hct & Hout) Hc Hne He.
  assert (0 <= hole < size h) as Hhs by lia.
  assert (∀ k, data_at (_data (move_to h e hole)) k =
               if decide (k = hole) then Some e else data_at (_data h) k)
    as Hat by (intros; by apply data_at_move_to).
  pose proof (Hcoh _ _ Hc Hne He) as Hce.
  unfold holed. rewrite size_move_to.
  split_and!; try (done || lia).
  - intros k e' Hk Hkc. rewrite Hat. simpl. case_decide as Hkh.
    + intros [= <-]. subst k. apply fn_lookup_insert.
    + intros He'. pose proof (Hcoh _ _ Hk Hkh He') as Hk'.
      destruct (decide (e.1 = e'.1)) as [Heq|Hneq].
      * rewrite <- Heq in Hk'. lia.
      * rewrite fn_lookup_insert_ne by done. done.
  - intros j. simpl. destruct (decide (e.1 = j)) as [<-|Hj].
    + right. exists hole, e. rewrite Hat, decide_True by done.
      split_and!; (done || lia).
    + rewrite fn_lookup_insert_ne by done.
      destruct (Hfr j) as [?|(k & e' & [Hk Hkh] & He' & <-)]; [by left|].
      right. exists k, e'. rewrite Hat, decide_False by done.
      split_and!; try (done || lia).
      intros ->. congruence.
  - intros e'. rewrite <- Hct. split.
    + intros (k & [Hk Hkc] & He'). rewrite Hat in He'.
      case_decide as Hkh.
      * injection He' as <-. exists c. done.
      * exists k. done.
    + intros (k & [Hk Hkh] & He').
      destruct (decide (k = c)) as [->|Hkc].
      * exists hole. rewrite Hat, decide_True by done.
        split; [lia | congruence].
      * exists k. rewrite Hat, decide_False by done. done.
  - intros k Hk. rewrite Hat, decide_False by lia. by apply Hout.
Qed.

Lemma holed_fill len h0 hole0 h hole p :
  holed len h0 hole0 h hole →
  fresh_off len h0 hole0 p.1 →
  filled len h0 hole0 p (move_to h p hole) hole.
Proof.
  intros (Hsz & [Hh Hlen] & Hcoh & Hfr & Hct & Hout) Hfresh.
  assert (0 <= hole < size h) as Hhs by lia.
  assert (∀ k, data_at (_data (move_to h p hole)) k =
               if decide (k = hole) then Some p else data_at (_data h) k)
    as Hat by (intros; by apply data_at_move_to).
  unfold filled. rewrite size_move_to.
  split_and!; try (done || lia); [by rewrite Hat, decide_True | ..].
  - intros k e Hk. rewrite Hat. simpl. case_decide as Hkh.
    + intros [= <-]. subst k. apply fn_lookup_insert.
    + intros He. rewrite fn_lookup_insert_ne; [by apply Hcoh|].
      destruct (proj1 (Hct e)) as (k0 & [Hk0 Hk0h] & He0); [by exists k|].
      intros Heq. by apply (Hfresh _ _ Hk0 Hk0h He0).
  - intros j. simpl. destruct (decide (p.1 = j)) as [<-|Hj].
    + right. exists hole, p. by rewrite Hat, decide_True.
    + rewrite fn_lookup_insert_ne by done.
      destruct (Hfr j) as [?|(k & e' & [Hk Hkh] & He' & <-)]; [by left|].
      right. exists k, e'. by rewrite Hat, decide_False.
  - intros e. rewrite <- Hct. split.
    + intros (k & Hk & He). rewrite Hat in He. case_decide as Hkh.
      * left. congruence.
      * right. exists k. done.
    + intros [->|(k & [Hk Hkh] & He)].
      * exists hole. by rewrite Hat, decide_True.
      * exists k. by rewrite Hat, decide_False.
  - intros k Hk. rewrite Hat, decide_False by lia. by apply Hout.
Qed.

Lemma holed_range len h0 hole0 h hole :
  holed len h0 hole0 h hole → 0 <= hole < size h ∧ len <= size h.
Proof. intros (_ & [? ?] & _). lia. Qed.

(** ** Heap order through the loops *)

Section Order.

Context `{!StrictWeak CMP}.

Lemma less_asym a b : less a b = true → less b a = false.
Proof. unfold less. apply cmp_asym. Qed.

Lemma less_irrefl a : less a a = false.
Proof.
  destruct (less a a) eqn:E; [|done]. pose proof (less_asym _ _ E). congruence.
Qed.

Lemma less_negtrans a b c :
  less a b = false → less b c = false → less a c = false.
Proof. unfold less. apply cmp_negtrans. Qed.

Lemma ho_hole_of_heap_order d len hole :
  heap_order_upto d len → len <= Z.of_nat (length d) → ho_hole d len hole.
Proof.
  intros Hho Hlen. split.
  - intros k e ep Hk _ _. by apply Hho.
  - intros k e eg Hk Hpk Hpos He Heg.
    pose proof (parent_spec k ltac:(lia)) as [? ?].
    destruct (data_at_is_Some d hole) as [eh Heh]; [lia|].
    apply less_negtrans with eh.
    + apply (Hho k); [done..|]. by rewrite Hpk.
    + apply (Hho hole); [lia|done..].
Qed.

Lemma ho_fill d d1 len hole p :
  (∀ k, data_at d1 k = if decide (k = hole) then Some p else data_at d k) →
  ho_hole d len hole → above_ok d hole p → below_ok d len hole p →
  heap_order_upto d1 len.
Proof.
  intros Hat [H1 H2] Ha Hb k e ep Hk. rewrite !Hat.
  pose proof (parent_spec k ltac:(lia)) as [? ?].
  case_decide as Hkh.
  - subst k. rewrite decide_False by lia. intros [= <-] Hep.
    apply Ha; [lia | done].
  - case_decide as Hpk.
    + intros He [= <-]. by eapply Hb.
    + by apply H1.
Qed.

Lemma ho_up_step d d1 len hole p q :
  (∀ k, data_at d1 k = if decide (k = hole) then Some q else data_at d k) →
  ho_hole d len hole → 0 < hole < len →
  data_at d (parent hole) = Some q → less p q = true →
  ho_hole d1 len (parent hole) ∧ below_ok d1 len (parent hole) p.
Proof.
  intros Hat [H1 H2] Hh Hq Hlt.
  pose proof (parent_spec hole ltac:(lia)) as [Hp0 Hp].
  assert (∀ k e, 0 < k < len → k ≠ hole → parent k = parent hole →
                 data_at d k = Some e → less e q = false) as Hsib.
  { intros k e Hk Hkh Hpk He. apply (H1 k); [done | done | lia | done |].
    by rewrite Hpk. }
  split; [split|].
  - intros k e ep Hk Hkp Hpkp. rewrite !Hat.
    pose proof (parent_spec k ltac:(lia)) as [? ?].
    case_decide as Hkh; [by subst k|].
    case_decide as Hpk.
    + intros He [= <-]. apply (H2 k); slot.
    + apply H1; slot.
  - intros k e eg Hk Hpk Hpos. rewrite !Hat.
    pose proof (parent_spec (parent hole) Hpos) as [? ?].
    rewrite (decide_False (P := parent (parent hole) = hole)) by lia.
    intros He Heg.
    assert (less q eg = false) as Hqg.
    { apply (H1 (parent hole)); [lia | lia | lia | done..]. }
    case_decide as Hkh.
    + by injection He as <-.
    + apply less_negtrans with q; [|done]. apply (Hsib k); slot.
  - intros k e Hk Hpk. rewrite Hat.
    assert (less q p = false) as Hqp by by apply less_asym.
    case_decide as Hkh.
    + by intros [= <-].
    + intros He. apply less_negtrans with q; [|done]. apply (Hsib k); slot.
Qed.

Lemma chosen_min d hole len c ec :
  chosen d hole len c → data_at d c = Some ec → 0 <= hole →
  ∀ s es, 0 < s < len → parent s = hole → data_at d s = Some es →
    less es ec = false.
Proof.
  intros Hch Hc Hh s es Hs Hps Hes.
  pose proof (parent_spec s ltac:(lia)) as [_ Hs'].
  rewrite Hps in Hs'.
  destruct Hch as [(Hl & l & r & Hl' & Hr' & ->) | (Hl & ->)];
    unfold pick_child, second_child in *.
  - destruct (less l r) eqn:Hlr.
    + destruct Hs' as [-> | ->].
      * replace (2 * hole + 2 - 1) with (2 * hole + 1) in * by lia.
        assert (es = ec) as -> by congruence. apply less_irrefl.
      * replace (2 * hole + 2 - 1) with (2 * hole + 1) in * by lia.
        assert (es = r) as -> by congruence.
        assert (ec = l) as -> by congruence. by apply less_asym.
    + destruct Hs' as [-> | ->].
      * replace (2 * hole + 2 - 1) with (2 * hole + 1) in * by lia.
        assert (es = l) as -> by congruence.
        assert (ec = r) as -> by congruence. done.
      * assert (es = ec) as -> by congruence. apply less_irrefl.
  - assert (s = 2 * hole + 2 - 1) as -> by lia.
    assert (es = ec) as -> by congruence. apply less_irrefl.
Qed.

Lemma ho_down_step d d1 len hole p c e :
  (∀ k, data_at d1 k = if decide (k = hole) then Some e else data_at d k) →
  ho_hole d len hole → 0 <= hole →
  chosen d hole len c → data_at d c = Some e → less e p = true →
  ho_hole d1 len c ∧ above_ok d1 c p.
Proof.
  intros Hat [H1 H2] Hh Hch Hc Hlt.
  pose proof (chosen_child _ _ _ _ Hch) as [Hc' Hclen].
  pose proof (parent_unique c hole Hh Hc') as Hpc.
  split; [split|].
  - intros k ek ep Hk Hkc Hpkc. rewrite !Hat.
    pose proof (parent_spec k ltac:(lia)) as [? ?].
    case_decide as Hkh.
    + subst k. rewrite decide_False by lia. intros [= <-] Hep.
      apply (H2 c); [lia | done | lia | done..].
    + case_decide as Hpk.
      * intros Hek [= <-]. apply (chosen_min d hole len c e Hch Hc Hh k); slot.
      * apply H1; slot.
  - intros k ek eg Hk Hpk _. rewrite !Hat.
    pose proof (parent_spec k ltac:(lia)) as [? ?].
    rewrite decide_False by lia.
    rewrite Hpc, decide_True by done.
    intros Hek [= <-].
    apply (H1 k); [done | lia | lia | done |]. by rewrite Hpk.
  - intros _ ep. rewrite Hat, Hpc, decide_True by done.
    intros [= <-]. by apply less_asym.
Qed.

Lemma down_stop_below d len hole p :
  (∀ c e, chosen d hole len c → data_at d c = Some e → less e p = false) →
  len <= Z.of_nat (length d) → 0 <= hole →
  below_ok d len hole p.
Proof.
  intros Hstop Hlen Hh k e Hk Hpk He.
  pose proof (parent_spec k ltac:(lia)) as [_ Hk']. rewrite Hpk in Hk'.
  assert (∃ c, chosen d hole len c) as [c Hch].
  { destruct (decide (second_child hole < len)) as [Hfull|Hnf].
    - destruct (data_at_is_Some d (second_child hole - 1)) as [l Hl].
      { unfold second_child in *. lia. }
      destruct (data_at_is_Some d (second_child hole)) as [r Hr].
      { unfold second_child in *. lia. }
      eexists. left. split; [done|]. by exists l, r.
    - eexists. right. split; [|done]. unfold second_child in *. lia. }
  pose proof (chosen_child _ _ _ _ Hch) as [Hc Hclen].
  destruct (data_at_is_Some d c) as [ec Hec]; [lia|].
  apply less_negtrans with ec.
  - apply (chosen_min d hole len c ec Hch Hec Hh k); slot.
  - by eapply Hstop.
Qed.

End Order.

(** ** What the two loops establish *)

Lemma bubble_up_filled len h0 hole0 p :
  0 <= hole0 < len → len <= size h0 →
  (∀ k e, 0 <= k < len → k ≠ hole0 →
     data_at (_data h0) k = Some e → _iim h0 e.1 = k) →
  fresh_off len h0 hole0 p.1 →
  ∃ h' k, bubble_up h0 hole0 p = Some (h', k) ∧ filled len h0 hole0 p h' k ∧
          (k = hole0 → h' = move_to h0 p hole0).
Proof.
  intros Hh Hlen Hcoh Hfresh.
  apply (bubble_up_loop_rule p
    (λ h hole, holed len h0 hole0 h hole ∧
               ((h = h0 ∧ hole = hole0) ∨ hole < hole0))
    (λ h' k, filled len h0 hole0 p h' k ∧
             (k = hole0 → h' = move_to h0 p hole0))).
  - intros h hole [HI _]. by apply holed_range in HI as [? _].
  - intros h hole q [HI Hcase] Hpos Hq _.
    pose proof (holed_range _ _ _ _ _ HI) as [? _].
    pose proof (parent_spec hole Hpos) as [? ?].
    split.
    + apply holed_step; [done | | lia | done].
      destruct HI as (_ & [? _] & _). lia.
    + right. destruct Hcase as [[_ ->] | ?]; lia.
  - intros h hole [HI Hcase] _. split; [by apply holed_fill|].
    intros ->. destruct Hcase as [[-> _] | ?]; [done | lia].
  - split; [by apply holed_start | by left].
  - lia.
Qed.

Lemma bubble_down_filled len h0 hole0 p :
  0 <= hole0 < len → len <= size h0 →
  (∀ k e, 0 <= k < len → k ≠ hole0 →
     data_at (_data h0) k = Some e → _iim h0 e.1 = k) →
  fresh_off len h0 hole0 p.1 →
  ∃ h' k, bubble_down h0 hole0 p len = Some (h', k) ∧
          filled len h0 hole0 p h' k.
Proof.
  intros Hh Hlen Hcoh Hfresh.
  apply (bubble_down_loop_rule p len (holed len h0 hole0)
           (filled len h0 hole0 p)).
  - intros h hole HI. by apply holed_range in HI.
  - intros h hole c e HI Hch Hc _.
    pose proof (holed_range _ _ _ _ _ HI) as [? _].
    apply chosen_child in Hch as [? ?].
    apply holed_step; [done | lia | lia | done].
  - intros h hole HI _. by apply holed_fill.
  - by apply holed_start.
  - lia.
Qed.

Section LoopOrder.

Context `{!StrictWeak CMP}.

(** Either [bubble_up] left the hole where it was and just wrote [p], which
    its parent does not exceed, or it moved and the first [len] slots are in
    heap order whatever lay below the hole. *)
Lemma bubble_up_order len h0 hole0 p :
  0 <= hole0 < len → len <= size h0 →
  ho_hole (_data h0) len hole0 →
  ∃ h' k, bubble_up h0 hole0 p = Some (h', k) ∧ size h' = size h0 ∧
    ((k = hole0 ∧ h' = move_to h0 p hole0 ∧ above_ok (_data h0) hole0 p) ∨
     (k < hole0 ∧ heap_order_upto (_data h') len)).
Proof.
  intros Hh Hlen Hho.
  apply (bubble_up_loop_rule p
    (λ h hole, (0 <= hole < len ∧ len <= size h ∧ size h = size h0) ∧
               ho_hole (_data h) len hole ∧
               ((h = h0 ∧ hole = hole0) ∨
                (hole < hole0 ∧ below_ok (_data h) len hole p)))
    (λ h' k, size h' = size h0 ∧
       ((k = hole0 ∧ h' = move_to h0 p hole0 ∧ above_ok (_data h0) hole0 p) ∨
        (k < hole0 ∧ heap_order_upto (_data h') len)))).
  - intros h hole ((? & ? & ?) & _). lia.
  - intros h hole q ((Hr & Hl & Hsz) & Hhole & Hcase) Hpos Hq Hlt.
    pose proof (parent_spec hole Hpos) as [? ?].
    rewrite size_move_to.
    destruct (ho_up_step (_data h) (_data (move_to h q hole)) len hole p q)
      as [Hho' Hb']; try slot.
    { intros k. apply data_at_move_to. lia. }
    split; [lia|]. split; [done|]. right. split; [|done].
    destruct Hcase as [[_ ->] | [? _]]; lia.
  - intros h hole ((Hr & Hl & Hsz) & Hhole & Hcase) Hstop.
    rewrite size_move_to. split; [done|].
    assert (above_ok (_data h) hole p) as Ha.
    { intros Hpos ep Hep. destruct (Hstop Hpos) as (q & Hq & Hlt).
      congruence. }
    destruct Hcase as [[-> ->] | [Hlt Hb]]; [by left|].
    right. split; [done|].
    apply (ho_fill (_data h) _ len hole p); [|done..].
    intros k. apply data_at_move_to. lia.
  - split; [lia|]. split; [done|]. by left.
  - lia.
Qed.

Lemma bubble_up_heap_order len h0 hole0 p :
  0 <= hole0 < len → len <= size h0 →
  ho_hole (_data h0) len hole0 → below_ok (_data h0) len hole0 p →
  ∃ h' k, bubble_up h0 hole0 p = Some (h', k) ∧ size h' = size h0 ∧
          heap_order_upto (_data h') len.
Proof.
  intros Hh Hlen Hho Hb.
  destruct (bubble_up_order len h0 hole0 p Hh Hlen Hho)
    as (h' & k & Hup & Hsz & Hcase).
  exists h', k. split_and!; try done.
  destruct Hcase as [(_ & -> & Ha) | [_ Hord]]; [|done].
  apply (ho_fill (_data h0) _ len hole0 p); [|done..].
  intros k'. apply data_at_move_to. lia.
Qed.

Lemma bubble_down_order len h0 hole0 p :
  0 <= hole0 < len → len <= size h0 →
  ho_hole (_data h0) len hole0 → above_ok (_data h0) hole0 p →
  ∃ h' k, bubble_down h0 hole0 p len = Some (h', k) ∧ size h' = size h0 ∧
          heap_order_upto (_data h') len.
Proof.
  intros Hh Hlen Hho Ha.
  apply (bubble_down_loop_rule p len
    (λ h hole, (0 <= hole < len ∧ len <= size h ∧ size h = size h0) ∧
               ho_hole (_data h) len hole ∧ above_ok (_data h) hole p)
    (λ h' _, size h' = size h0 ∧ heap_order_upto (_data h') len)).
  - intros h hole ((? & ? & ?) & _). lia.
  - intros h hole c e ((Hr & Hl & Hsz) & Hhole & Ha') Hch Hc Hlt.
    pose proof (chosen_child _ _ _ _ Hch) as [? ?].
    rewrite size_move_to.
    destruct (ho_down_step (_data h) (_data (move_to h e hole)) len hole p c e)
      as [Hho' Ha'']; try slot.
    { intros k. apply data_at_move_to. lia. }
    split; [lia | done].
  - intros h hole ((Hr & Hl & Hsz) & Hhole & Ha') Hstop.
    rewrite size_move_to. split; [done|].
    apply (ho_fill (_data h) _ len hole p); [|done..|].
    + intros k. apply data_at_move_to. lia.
    + apply down_stop_below; [done | unfold size in Hl; lia | lia].
  - split; [lia | done].
  - lia.
Qed.

(** Neither half of [ho_hole], nor [above_ok], reads the hole itself. *)
Lemma ho_hole_off_hole d d1 len hole :
  (∀ k, k ≠ hole → data_at d1 k = data_at d k) →
  ho_hole d len hole → ho_hole d1 len hole.
Proof.
  intros Hat [H1 H2]. split.
  - intros k e ep Hk Hkh Hpk. rewrite !Hat by done. by apply H1.
  - intros k e eg Hk Hpk Hpos.
    pose proof (parent_spec k ltac:(lia)) as [? ?].
    pose proof (parent_spec hole Hpos) as [? ?].
    rewrite !Hat by lia. by apply H2.
Qed.

Lemma above_ok_off_hole d d1 hole p :
  (∀ k, k ≠ hole → data_at d1 k = data_at d k) →
  above_ok d hole p → above_ok d1 hole p.
Proof.
  intros Hat Ha Hpos ep.
  pose proof (parent_spec hole Hpos) as [? ?].
  rewrite Hat by lia. by apply Ha.
Qed.

Lemma heap_order_upto_mono d len len' :
  heap_order_upto d len → len' <= len → heap_order_upto d len'.
Proof. intros Hho Hle k e ep Hk. apply Hho. lia. Qed.

End LoopOrder.

(** ** Consequences of index coherence *)

Lemma coherent_inj h k1 k2 e1 e2 :
  coherent h →
  data_at (_data h) k1 = Some e1 → data_at (_data h) k2 = Some e2 →
  e1.1 = e2.1 → k1 = k2.
Proof.
  intros Hcoh H1 H2 Heq.
  pose proof (data_at_range _ _ _ H1). pose proof (data_at_range _ _ _ H2).
  rewrite <- (Hcoh k1 e1), <- (Hcoh k2 e2) by done. by rewrite Heq.
Qed.

Lemma coherent_at h k j x :
  coherent h → data_at (_data h) k = Some (j, x) → _iim h j = k.
Proof.
  intros Hcoh Hx. apply (Hcoh k (j, x)); [|done]. by apply data_at_range in Hx.
Qed.

Lemma coherent_occupies h j :
  coherent h → occupies h j →
  ∃ q, data_at (_data h) (_iim h j) = Some (j, q) ∧ 0 <= _iim h j < size h.
Proof.
  intros Hcoh (k & [j' q] & He & <-).
  pose proof (data_at_range _ _ _ He) as Hk.
  rewrite (Hcoh k (j', q)) by done. eauto.
Qed.

Lemma elem_of_data_at (d : list Pair) e :
  e ∈ d ↔ ∃ k, data_at d k = Some e.
Proof.
  rewrite list_elem_of_lookup. split.
  - intros [i Hi]. exists (Z.of_nat i). unfold data_at.
    rewrite decide_True by lia. by rewrite Nat2Z.id.
  - intros [k Hk]. unfold data_at in Hk. case_decide; [|done]. eauto.
Qed.

Lemma coherent_NoDup h : coherent h → NoDup (_data h).*1.
Proof.
  intros Hcoh. apply NoDup_alt. intros i1 i2 j H1 H2.
  apply list_lookup_fmap_Some in H1 as (e1 & -> & H1).
  apply list_lookup_fmap_Some in H2 as (e2 & He & H2).
  assert (Z.of_nat i1 = Z.of_nat i2); [|lia].
  apply (coherent_inj h _ _ e1 e2); [done | | | done];
    unfold data_at; rewrite decide_True by lia; by rewrite Nat2Z.id.
Qed.

Lemma NoDup_fst_NoDup (d : list Pair) : NoDup d.*1 → NoDup d.
Proof. apply NoDup_fmap_1. Qed.

(** ** Dropping the last slot *)

Lemma pop_back_nonempty h2 :
  0 < size h2 →
  pop_back h2 = Some (mkBinHeap (removelast (_data h2)) (_iim h2)).
Proof.
  unfold pop_back, size. destruct (_data h2); [simpl; lia | done].
Qed.

Lemma pop_back_spec h2 :
  0 < size h2 →
  ∃ h', pop_back h2 = Some h' ∧ size h' = size h2 - 1 ∧ _iim h' = _iim h2 ∧
    ∀ k, data_at (_data h') k =
         if decide (k < size h2 - 1) then data_at (_data h2) k else None.
Proof.
  intros Hpos. rewrite pop_back_nonempty by done.
  eexists. split; [done|]. unfold size in *. simpl.
  split_and!; [|done|].
  - rewrite removelast_firstn_len, length_take. lia.
  - intros k. apply data_at_removelast.
Qed.

(** ** Removing an entry: the part shared by [pop] and [erase] *)

Lemma data_at_iim_set h i v : _data (iim_set h i v) = _data h.
Proof. done. Qed.

Lemma size_iim_set h i v : size (iim_set h i v) = size h.
Proof. done. Qed.

Lemma remove_last h s e :
  coherent h → data_at (_data h) s = Some e → s = size h - 1 →
  ∃ h', pop_back (iim_set h e.1 (State_to_int POST_HEAP)) = Some h' ∧
        removed h s e h'.
Proof.
  intros Hcoh He Hs. pose proof (data_at_range _ _ _ He) as Hr.
  destruct (pop_back_spec (iim_set h e.1 (State_to_int POST_HEAP)))
    as (h' & -> & Hsz & Hiim & Hat); [rewrite size_iim_set; unfold size; lia|].
  rewrite size_iim_set in *. simpl in Hat.
  assert (∀ k x, data_at (_data h') k = Some x →
                 k ≠ s ∧ data_at (_data h) k = Some x) as Hsub.
  { intros k x. rewrite Hat. case_decide; [|done]. intros Hx. split; [lia|done]. }
  exists h'. split; [done|]. unfold removed. split_and!; [done| | | |].
  - intros k x Hk Hx. rewrite Hiim. simpl.
    destruct (Hsub _ _ Hx) as [Hks Hx'].
    rewrite fn_lookup_insert_ne.
    + apply Hcoh; [|done]. by apply data_at_range in Hx'.
    + intros Heq. apply Hks. symmetry. by apply (coherent_inj h _ _ e x).
  - intros x. split.
    + intros [k Hx]. exists k. by apply Hsub.
    + intros (k & Hks & Hx). exists k. rewrite Hat.
      pose proof (data_at_range _ _ _ Hx). unfold size in *.
      by rewrite decide_True by lia.
  - rewrite Hiim. simpl. apply fn_lookup_insert.
  - intros j Hj. left. rewrite Hiim. simpl. by rewrite fn_lookup_insert_ne.
Qed.

Lemma remove_holed_pre h s e last :
  coherent h → data_at (_data h) s = Some e →
  data_at (_data h) (size h - 1) = Some last → s < size h - 1 →
  let h1 := iim_set h e.1 (State_to_int POST_HEAP) in
  (∀ k x, 0 <= k < size h - 1 → k ≠ s →
     data_at (_data h1) k = Some x → _iim h1 x.1 = k) ∧
  fresh_off (size h - 1) h1 s last.1.
Proof.
  intros Hcoh He Hlast Hs h1. split.
  - intros k x Hk Hks Hx. simpl in *. rewrite fn_lookup_insert_ne.
    + apply Hcoh; [lia | done].
    + intros Heq. apply Hks. symmetry. by apply (coherent_inj h _ _ e x).
  - intros k x Hk Hks Hx Heq. simpl in Hx.
    pose proof (coherent_inj h _ _ _ _ Hcoh Hx Hlast Heq). lia.
Qed.

Lemma remove_filled h s e last h2 k :
  coherent h → data_at (_data h) s = Some e → s < size h - 1 →
  data_at (_data h) (size h - 1) = Some last →
  filled (size h - 1) (iim_set h e.1 (State_to_int POST_HEAP)) s last h2 k →
  ∃ h', pop_back h2 = Some h' ∧ removed h s e h'.
Proof.
  intros Hcoh He Hs Hlast (Hsz & _ & Hcoh2 & Hfr & Hct & _).
  rewrite size_iim_set in Hsz. simpl in Hfr, Hct.
  pose proof (data_at_range _ _ _ He) as Hr.
  destruct (pop_back_spec h2) as (h' & -> & Hsz' & Hiim & Hat); [lia|].
  rewrite Hsz in *.
  assert (∀ x, (∃ k, data_at (_data h') k = Some x) ↔
               (∃ k, k ≠ s ∧ data_at (_data h) k = Some x)) as Hct'.
  { intros x. split.
    - intros [k' Hx]. rewrite Hat in Hx. case_decide as Hk'; [|done].
      pose proof (data_at_range _ _ _ Hx).
      destruct (proj1 (Hct x)) as [->|(k0 & [? ?] & ?)];
        [exists k'; split; [lia | done] | | by exists k0].
      exists (size h - 1). split; [lia | done].
    - intros (k' & Hks & Hx). pose proof (data_at_range _ _ _ Hx).
      destruct (proj2 (Hct x)) as (k0 & Hk0 & Hx0).
      { destruct (decide (k' = size h - 1)) as [->|?].
        - left. congruence.
        - right. exists k'. unfold size in *. split; [lia | done]. }
      exists k0. rewrite Hat. by rewrite decide_True by lia. }
  assert (¬ ∃ k' x, data_at (_data h') k' = Some x ∧ x.1 = e.1) as Hgone.
  { intros (k' & x & Hx & Heq).
    destruct (proj1 (Hct' x)) as (k0 & Hk0 & Hx0); [by exists k'|].
    apply Hk0. by apply (coherent_inj h _ _ x e). }
  exists h'. split; [done|]. unfold removed. split_and!; [done| |done| |].
  - intros k' x Hk' Hx. rewrite Hat in Hx. rewrite decide_True in Hx by lia.
    rewrite Hiim. apply Hcoh2; [lia | done].
  - rewrite Hiim. destruct (Hfr e.1) as [->|(k' & x & Hk' & Hx & Heq)].
    + apply fn_lookup_insert.
    + exfalso. apply Hgone. exists k', x. split; [|done].
      rewrite Hat. by rewrite decide_True by lia.
  - intros j Hj. rewrite Hiim.
    destruct (Hfr j) as [->|(k' & x & Hk' & Hx & Heq)].
    + left. by rewrite fn_lookup_insert_ne.
    + right. exists k', x. split; [|done].
      rewrite Hat. by rewrite decide_True by lia.
Qed.

Lemma removed_membership h s e h' :
  coherent h → data_at (_data h) s = Some e →
  membership h → removed h s e h' → membership h'.
Proof.
  intros Hcoh He Hmem (Hsz & Hcoh' & Hct & Hpost & Hfr) j Hj.
  destruct (decide (j = e.1)) as [->|Hne].
  { rewrite Hpost in Hj. unfold State_to_int in Hj. lia. }
  assert (occupies h' j) as Hocc.
  { destruct (Hfr j Hne) as [Heq|?]; [|done].
    rewrite Heq in Hj. destruct (Hmem j Hj) as [q Hq].
    destruct (proj2 (Hct (j, q))) as [k' Hk'].
    - exists (_iim h j). split; [|done]. intros Hs.
      rewrite Hs in Hq. by simplify_eq.
    - by exists k', (j, q). }
  destruct (coherent_occupies h' j Hcoh' Hocc) as (q & Hq & _). eauto.
Qed.

Lemma filled_rebase len h0 hole0 p h' k :
  0 <= hole0 < len → len <= size h0 →
  filled len (move_to h0 p hole0) hole0 p h' k →
  filled len h0 hole0 p h' k.
Proof.
  intros Hh Hlen (Hsz & [Hk Hp] & Hcoh & Hfr & Hct & Hout).
  rewrite size_move_to in Hsz.
  assert (∀ k, data_at (_data (move_to h0 p hole0)) k =
               if decide (k = hole0) then Some p else data_at (_data h0) k)
    as Hat by (intros; apply data_at_move_to; lia).
  unfold filled. split_and!; try (done || lia).
  - intros j. destruct (Hfr j) as [Hj|?]; [|by right].
    simpl in Hj. destruct (decide (p.1 = j)) as [<-|Hne].
    + right. by exists k, p.
    + left. by rewrite fn_lookup_insert_ne in Hj.
  - intros e. rewrite Hct. split.
    + intros [?|(k0 & [? ?] & He)]; [by left|]. right. exists k0.
      rewrite Hat in He. by rewrite decide_False in He.
    + intros [?|(k0 & [? ?] & He)]; [by left|]. right. exists k0.
      rewrite Hat. by rewrite decide_False.
  - intros k0 Hk0. rewrite Hout, Hat by done. by rewrite decide_False by lia.
Qed.

(** ** [pop] and [erase] *)

Lemma pop_removed h e :
  coherent h → data_at (_data h) 0 = Some e →
  ∃ h', pop h = Some h' ∧ removed h 0 e h'.
Proof.
  intros Hcoh He. pose proof (data_at_range _ _ _ He) as Hr.
  unfold pop. rewrite He. simpl. case_decide as Hn.
  - destruct (data_at_is_Some (_data h) (size h - 1)) as [last Hlast].
    { unfold size. lia. }
    rewrite Hlast. simpl.
    destruct (remove_holed_pre h 0 e last) as [Hpre Hfresh]; try slot.
    destruct (bubble_down_filled (size h - 1)
                (iim_set h e.1 (State_to_int POST_HEAP)) 0 last)
      as (h2 & k & -> & Hfilled); try slot.
    { rewrite size_iim_set. lia. }
    simpl. apply (remove_filled h 0 e last h2 k); slot.
  - apply remove_last; [done.. | unfold size in *; lia].
Qed.

Lemma erase_removed h i q :
  coherent h → data_at (_data h) (_iim h i) = Some (i, q) →
  ∃ h', erase h i = Some h' ∧ removed h (_iim h i) (i, q) h'.
Proof.
  intros Hcoh He. pose proof (data_at_range _ _ _ He) as Hr.
  unfold erase. rewrite He. simpl. case_decide as Hn.
  - destruct (data_at_is_Some (_data h) (size h - 1)) as [last Hlast].
    { unfold size. lia. }
    rewrite Hlast. simpl.
    destruct (remove_holed_pre h (_iim h i) (i, q) last) as [Hpre Hfresh];
      try slot.
    simpl fst in Hpre, Hfresh.
    destruct (bubble_up_filled (size h - 1)
                (iim_set h i (State_to_int POST_HEAP)) (_iim h i) last)
      as (h2 & k & -> & Hfilled & Hstay); try slot.
    { rewrite size_iim_set. lia. }
    simpl. case_decide as Hk.
    + rewrite Hstay by done.
      rewrite data_at_move_to by (rewrite size_iim_set; lia).
      rewrite decide_False by lia. simpl. rewrite Hlast. simpl.
      rewrite <- Hstay by done.
      destruct Hfilled as (Hsz2 & [Hk2 Hp2] & Hcoh2 & Hrest).
      subst k. rewrite size_iim_set in Hsz2.
      destruct (bubble_down_filled (size h - 1) h2 (_iim h i) last)
        as (h3 & k3 & -> & Hfilled3); try slot.
      { intros k x Hkr _ Hx. by apply Hcoh2. }
      { intros k x Hkr Hki Hx Heq. apply Hki.
        rewrite <- (Hcoh2 k x), <- (Hcoh2 (_iim h i) last) by done.
        by rewrite Heq. }
      simpl. apply (remove_filled h (_iim h i) (i, q) last h3 k3); try slot.
      apply filled_rebase; [lia | rewrite size_iim_set; lia |].
      simpl fst. by rewrite <- Hstay.
    + apply (remove_filled h (_iim h i) (i, q) last h2 k); slot.
  - apply (remove_last h (_iim h i) (i, q)); [done.. | unfold size in *; lia].
Qed.

(** ** [push] and the three priority updates *)

Lemma filled_placed h0 s p h' k :
  filled (size h0) h0 s p h' k → size h' = size h0 ∧ placed h0 s p h'.
Proof.
  intros (Hsz & _ & Hcoh & Hfr & Hct & _). split; [done|]. split_and!.
  - by rewrite <- Hsz in Hcoh.
  - intros x. split.
    + intros [k' Hx]. pose proof (data_at_range _ _ _ Hx).
      destruct (proj1 (Hct x)) as [?|(k0 & [? ?] & ?)]; [|by left|].
      * exists k'. unfold size in *. split; [lia | done].
      * right. by exists k0.
    + intros Hx. destruct (proj2 (Hct x)) as (k' & _ & ?); [|by exists k'].
      destruct Hx as [?|(k0 & ? & Hx)]; [by left|]. right. exists k0.
      pose proof (data_at_range _ _ _ Hx). unfold size. done.
  - intros j. destruct (Hfr j) as [?|(k' & x & _ & ? & ?)]; [by left|].
    right. by exists k', x.
Qed.

Lemma reposition_pre h i q :
  coherent h → data_at (_data h) (_iim h i) = Some (i, q) →
  (∀ k e, 0 <= k < size h → k ≠ _iim h i →
     data_at (_data h) k = Some e → _iim h e.1 = k) ∧
  fresh_off (size h) h (_iim h i) i.
Proof.
  intros Hcoh He. split.
  - intros k e Hk _. by apply Hcoh.
  - intros k e Hk Hne Hx Heq. apply Hne.
    by apply (coherent_inj h _ _ e (i, q)).
Qed.

Lemma bubble_up_placed h i q p :
  coherent h → data_at (_data h) (_iim h i) = Some (i, q) →
  ∃ h' k, bubble_up h (_iim h i) (i, p) = Some (h', k) ∧
          size h' = size h ∧ placed h (_iim h i) (i, p) h'.
Proof.
  intros Hcoh He. pose proof (data_at_range _ _ _ He).
  destruct (reposition_pre h i q Hcoh He) as [Hpre Hfresh].
  destruct (bubble_up_filled (size h) h (_iim h i) (i, p))
    as (h' & k & Hup & Hfilled & _); try slot.
  exists h', k. split; [done|]. by eapply filled_placed.
Qed.

Lemma bubble_down_placed h i q p :
  coherent h → data_at (_data h) (_iim h i) = Some (i, q) →
  ∃ h' k, bubble_down h (_iim h i) (i, p) (size h) = Some (h', k) ∧
          size h' = size h ∧ placed h (_iim h i) (i, p) h'.
Proof.
  intros Hcoh He. pose proof (data_at_range _ _ _ He).
  destruct (reposition_pre h i q Hcoh He) as [Hpre Hfresh].
  destruct (bubble_down_filled (size h) h (_iim h i) (i, p))
    as (h' & k & Hup & Hfilled); try slot.
  exists h', k. split; [done|]. by eapply filled_placed.
Qed.

Lemma decrease_placed h i q p :
  coherent h → data_at (_data h) (_iim h i) = Some (i, q) →
  ∃ h', decrease h i p = Some h' ∧
        size h' = size h ∧ placed h (_iim h i) (i, p) h'.
Proof.
  intros Hcoh He. unfold decrease.
  destruct (bubble_up_placed h i q p Hcoh He) as (h' & k & -> & ?).
  by exists h'.
Qed.

Lemma increase_placed h i q p :
  coherent h → data_at (_data h) (_iim h i) = Some (i, q) →
  ∃ h', increase h i p = Some h' ∧
        size h' = size h ∧ placed h (_iim h i) (i, p) h'.
Proof.
  intros Hcoh He. unfold increase.
  destruct (bubble_down_placed h i q p Hcoh He) as (h' & k & -> & ?).
  by exists h'.
Qed.

Lemma size_resize_plus_one h : size (resize_plus_one h) = size h + 1.
Proof. unfold size, resize_plus_one. simpl. rewrite length_app. simpl. lia. Qed.

Lemma data_at_resize_plus_one h k :
  data_at (_data (resize_plus_one h)) k =
  if decide (k = size h) then Some Pair_default else data_at (_data h) k.
Proof. apply data_at_snoc. Qed.

Lemma push_placed h p :
  coherent h → _iim h p.1 < 0 →
  ∃ h', push h p = Some h' ∧
        size h' = size h + 1 ∧ placed h (size h) p h'.
Proof.
  intros Hcoh Hpre. unfold push.
  assert (0 <= size h) as Hnn by (unfold size; lia).
  destruct (bubble_up_filled (size h + 1) (resize_plus_one h) (size h) p)
    as (h' & k & -> & Hfilled & _).
  - lia.
  - rewrite size_resize_plus_one. lia.
  - intros k e Hk Hne. rewrite data_at_resize_plus_one, decide_False by done.
    apply Hcoh. lia.
  - intros k e Hk Hne. rewrite data_at_resize_plus_one, decide_False by done.
    intros He Heq. rewrite <- Heq, (Hcoh k e) in Hpre by slot. lia.
  - exists h'. split; [done|].
    rewrite <- size_resize_plus_one in Hfilled.
    apply filled_placed in Hfilled as [Hsz (Hcoh' & Hct & Hfr)].
    rewrite size_resize_plus_one in Hsz. split; [done|].
    split_and!; [done | | done].
    intros x. rewrite Hct. split.
    + intros [?|(k0 & Hk0 & Hx)]; [by left|]. right. exists k0.
      rewrite data_at_resize_plus_one, decide_False in Hx by done. done.
    + intros [?|(k0 & Hk0 & Hx)]; [by left|]. right. exists k0.
      pose proof (data_at_range _ _ _ Hx). unfold size in *.
      rewrite data_at_resize_plus_one, decide_False by (unfold size; lia).
      split; [lia | done].
Qed.

Lemma set_placed h i p :
  coherent h → membership h →
  ∃ h', set h i p = Some h' ∧
    if decide (_iim h i < 0)
    then size h' = size h + 1 ∧ placed h (size h) (i, p) h'
    else size h' = size h ∧ placed h (_iim h i) (i, p) h'.
Proof.
  intros Hcoh Hmem. unfold set. case_decide as Hneg.
  - by apply push_placed.
  - destruct (Hmem i) as [q Hq]; [lia|]. rewrite Hq. simpl.
    destruct (CMP p q).
    + destruct (bubble_up_placed h i q p Hcoh Hq) as (h' & k & -> & ?).
      by exists h'.
    + destruct (bubble_down_placed h i q p Hcoh Hq) as (h' & k & -> & ?).
      by exists h'.
Qed.

Lemma placed_membership h s p h' :
  coherent h → membership h → placed h s p h' →
  (∀ e, data_at (_data h) s = Some e → e.1 = p.1) →
  membership h'.
Proof.
  intros Hcoh Hmem (Hcoh' & Hct & Hfr) Hs j Hj.
  assert (occupies h' j) as Hocc.
  { destruct (Hfr j) as [Heq|?]; [|done].
    rewrite Heq in Hj. destruct (Hmem j Hj) as [q Hq].
    destruct (decide (_iim h j = s)) as [Hjs|Hjs].
    - rewrite Hjs in Hq. pose proof (Hs _ Hq) as Hp. simpl in Hp. subst j.
      destruct (proj2 (Hct p)) as [k' Hk']; [by left|]. by exists k', p.
    - destruct (proj2 (Hct (j, q))) as [k' Hk'].
      + right. by exists (_iim h j).
      + by exists k', (j, q). }
  destruct (coherent_occupies h' j Hcoh' Hocc) as (q & Hq & _). eauto.
Qed.

(** ** [state], [replace], the state setter and [clear] *)

Lemma state_IN_HEAP h i : state h i = Some IN_HEAP ↔ 0 <= _iim h i.
Proof.
  unfold state, State_of_int. repeat case_decide; split; (done || lia).
Qed.

Lemma state_of_index h i st :
  _iim h i = State_to_int st → st ≠ IN_HEAP → state h i = Some st.
Proof.
  intros Hi Hst. unfold state. rewrite Hi.
  destruct st; try done; unfold State_to_int, State_of_int; by repeat case_decide.
Qed.

Lemma Inv_not_occupies h i : coherent h → _iim h i < 0 → ¬ occupies h i.
Proof.
  intros Hcoh Hneg Hocc.
  destruct (coherent_occupies h i Hcoh Hocc) as (_ & _ & ?). lia.
Qed.

Lemma iim_set_neg_Inv h i v :
  Inv h → ¬ occupies h i → v < 0 → Inv (iim_set h i v).
Proof.
  intros [Hcoh Hmem] Hocc Hv. split.
  - intros k e Hk He. simpl in *. rewrite fn_lookup_insert_ne.
    + by apply Hcoh.
    + intros ->. apply Hocc. by exists k, e.
  - intros j. simpl. destruct (decide (i = j)) as [<-|Hne].
    + rewrite fn_lookup_insert. lia.
    + rewrite fn_lookup_insert_ne by done. apply Hmem.
Qed.

Lemma replace_eq h i j q :
  data_at (_data h) (_iim h i) = Some (i, q) →
  replace h i j =
  Some (mkBinHeap (<[Z.to_nat (_iim h i) := (j, q)]> (_data h))
                  (<[j := _iim h i]> (<[i := _iim h j]> (_iim h)))).
Proof. intros He. unfold replace. simpl. by rewrite He. Qed.

Lemma replace_Inv h i j h' :
  Inv h → 0 <= _iim h i → _iim h j < 0 → replace h i j = Some h' → Inv h'.
Proof.
  intros [Hcoh Hmem] Hi Hj. destruct (Hmem i Hi) as [q Hq].
  rewrite (replace_eq h i j q Hq). intros [= <-].
  pose proof (data_at_range _ _ _ Hq) as Hr.
  assert (i ≠ j) as Hij by (intros ->; lia).
  split.
  - intros k e Hk. simpl. rewrite data_at_insert by done.
    case_decide as Hki.
    + intros [= <-]. simpl. subst k. apply fn_lookup_insert.
    + intros He.
      assert (e.1 ≠ j).
      { intros <-. rewrite (Hcoh k e) in Hj; [lia | | done].
        by apply data_at_range in He. }
      assert (e.1 ≠ i).
      { intros Heq. apply Hki. by apply (coherent_inj h _ _ e (i, q)). }
      rewrite !fn_lookup_insert_ne by done. apply Hcoh; [|done].
      by apply data_at_range in He.
  - intros x. simpl. rewrite data_at_insert by done.
    destruct (decide (j = x)) as [<-|Hjx].
    + rewrite fn_lookup_insert, decide_True by done. eauto.
    + rewrite fn_lookup_insert_ne by done.
      destruct (decide (i = x)) as [<-|Hix].
      * rewrite fn_lookup_insert. lia.
      * rewrite fn_lookup_insert_ne by done. intros Hx.
        destruct (Hmem x Hx) as [q' Hq']. rewrite decide_False; [eauto|].
        intros Heq. rewrite Heq in Hq'. by simplify_eq.
Qed.

Lemma replace_order h i j h' :
  heap_order h → replace h i j = Some h' → heap_order h'.
Proof.
  intros Hho. unfold replace. simpl.
  destruct (data_at (_data h) (_iim h i)) as [e|] eqn:He; [|done].
  pose proof (data_at_range _ _ _ He) as Hr.
  intros [= <-] k x xp Hk. unfold size in Hk. simpl in *.
  rewrite length_insert in Hk. rewrite !data_at_insert by done.
  intros Hx Hxp.
  assert (∃ y, data_at (_data h) k = Some y ∧ y.2 = x.2) as (y & Hy & Hy2).
  { destruct (decide (k = _iim h i)) as [->|?]; [|by exists x].
    exists e. by simplify_eq. }
  assert (∃ yp, data_at (_data h) (parent k) = Some yp ∧ yp.2 = xp.2)
    as (yp & Hyp & Hyp2).
  { destruct (decide (parent k = _iim h i)) as [Hp|?]; [|by exists xp].
    rewrite Hp. exists e. by simplify_eq. }
  unfold less. rewrite <- Hy2, <- Hyp2. by apply (Hho k).
Qed.

Lemma set_state_Inv h i st h' :
  Inv h → set_state h i st = Some h' → Inv h'.
Proof.
  intros HInv. pose proof HInv as [Hcoh Hmem].
  assert (st ≠ IN_HEAP →
          ((if decide (state h i = Some IN_HEAP) then erase h i else Some h)
           ≫= λ h1, Some (iim_set h1 i (State_to_int st))) = Some h' →
          Inv h') as Hgo.
  { intros Hst. case_decide as Hin.
    - apply state_IN_HEAP in Hin. destruct (Hmem i Hin) as [q Hq].
      destruct (erase_removed h i q Hcoh Hq) as (h1 & -> & Hrem).
      simpl. intros [= <-].
      pose proof (removed_membership _ _ _ _ Hcoh Hq Hmem Hrem) as Hmem1.
      destruct Hrem as (_ & Hcoh1 & _ & Hpost & _). simpl in Hpost.
      apply iim_set_neg_Inv; [done | | by destruct st].
      apply Inv_not_occupies; [done|]. rewrite Hpost. done.
    - simpl. intros [= <-].
      rewrite state_IN_HEAP in Hin.
      apply iim_set_neg_Inv; [done | | by destruct st].
      apply Inv_not_occupies; [done | lia]. }
  destruct st; simpl; [by intros [= <-] | by apply Hgo..].
Qed.

Lemma set_state_total h i st : Inv h → ∃ h', set_state h i st = Some h'.
Proof.
  intros [Hcoh Hmem].
  assert (∃ h1, (if decide (state h i = Some IN_HEAP)
                 then erase h i else Some h) = Some h1) as [h1 Hh1].
  { case_decide as Hin; [|eauto].
    apply state_IN_HEAP in Hin. destruct (Hmem i Hin) as [q Hq].
    destruct (erase_removed h i q Hcoh Hq) as (h1 & ? & _). eauto. }
  destruct st; simpl; rewrite ?Hh1; simpl; eauto.
Qed.

(** ** Every operation keeps invariants 3 and 4 *)

Lemma Inv_init : Inv init.
Proof.
  split.
  - intros k e Hk He. apply data_at_range in He. simpl in He. lia.
  - intros j Hj. simpl in Hj. unfold State_to_int in Hj. lia.
Qed.

Lemma empty_false_top h : empty h = false → ∃ e, data_at (_data h) 0 = Some e.
Proof.
  unfold empty. destruct (_data h) as [|e d] eqn:Hd; [done|]. intros _.
  by exists e.
Qed.

Lemma membership_slot h i e :
  coherent h → data_at (_data h) (_iim h i) = Some e → 0 <= _iim h i →
  membership h → e.1 = i.
Proof.
  intros Hcoh He Hi Hmem. destruct (Hmem i Hi) as [q Hq]. by simplify_eq.
Qed.

Lemma exec_Inv h o :
  Inv h → pre h o → o ≠ Clear → ∃ h', exec o h = Some h' ∧ Inv h'.
Proof.
  intros [Hcoh Hmem] Hpre Hnc. destruct o as [i p| |i|i p|i p|i p|i j|i st|];
    simpl in *; [| | | | | | | |done].
  - destruct (push_placed h (i, p) Hcoh Hpre) as (h' & Hpush & _ & Hpl).
    exists h'. split; [done|]. split; [apply Hpl|].
    apply (placed_membership h (size h) (i, p)); [done..|].
    intros e He. apply data_at_range in He. unfold size in He. lia.
  - destruct (empty_false_top h Hpre) as [e He].
    destruct (pop_removed h e Hcoh He) as (h' & Hpop & Hrem).
    exists h'. split; [done|]. split; [apply Hrem|].
    by apply (removed_membership h 0 e).
  - apply state_IN_HEAP in Hpre. destruct (Hmem i Hpre) as [q Hq].
    destruct (erase_removed h i q Hcoh Hq) as (h' & Her & Hrem).
    exists h'. split; [done|]. split; [apply Hrem|].
    by apply (removed_membership h (_iim h i) (i, q)).
  - destruct (set_placed h i p Hcoh Hmem) as (h' & Hset & Hcase).
    exists h'. split; [done|]. case_decide as Hneg.
    + destruct Hcase as [_ Hpl]. split; [apply Hpl|].
      apply (placed_membership h (size h) (i, p)); [done..|].
      intros e He. apply data_at_range in He. unfold size in He. lia.
    + destruct Hcase as [_ Hpl]. split; [apply Hpl|].
      apply (placed_membership h (_iim h i) (i, p)); [done..|].
      intros e He. apply (membership_slot h i e); [done.. | lia | done].
  - destruct Hpre as [Hin _]. apply state_IN_HEAP in Hin.
    destruct (Hmem i Hin) as [q Hq].
    destruct (decrease_placed h i q p Hcoh Hq) as (h' & Hdec & _ & Hpl).
    exists h'. split; [done|]. split; [apply Hpl|].
    apply (placed_membership h (_iim h i) (i, p)); [done..|].
    intros e He. by simplify_eq.
  - destruct Hpre as [Hin _]. apply state_IN_HEAP in Hin.
    destruct (Hmem i Hin) as [q Hq].
    destruct (increase_placed h i q p Hcoh Hq) as (h' & Hdec & _ & Hpl).
    exists h'. split; [done|]. split; [apply Hpl|].
    apply (placed_membership h (_iim h i) (i, p)); [done..|].
    intros e He. by simplify_eq.
  - destruct Hpre as [Hin Hout]. rewrite state_IN_HEAP in Hin, Hout.
    destruct (Hmem i Hin) as [q Hq].
    eexists. split; [by apply (replace_eq h i j q)|].
    apply (replace_Inv h i j); [done | done | lia |].
    by apply replace_eq.
  - destruct (set_state_total h i st) as [h' Hh']; [done|].
    exists h'. split; [done|]. by apply (set_state_Inv h i st).
Qed.

(** [clear] keeps invariant 3 but not invariant 4: the index values of the
    dropped items stay non-negative. *)
Lemma exec_coherent h o :
  Inv h → pre h o → ∃ h', exec o h = Some h' ∧ coherent h'.
Proof.
  intros HInv Hpre.
  assert (o = Clear ∨ o ≠ Clear) as [->|Hnc] by (destruct o; by eauto).
  - eexists. split; [done|]. intros k e Hk He.
    apply data_at_range in He. simpl in He. lia.
  - destruct (exec_Inv h o HInv Hpre Hnc) as (h' & ? & [? _]). eauto.
Qed.

(** ** Lookup by index against a scan of the array *)

Lemma scan_NoDup (d : list Pair) i q :
  NoDup d.*1 → (i, q) ∈ d → scan d i = Some q.
Proof.
  induction d as [|e d IH]; intros Hnd Hin; [by apply elem_of_nil in Hin|].
  simpl in *. apply NoDup_cons in Hnd as [Hne Hnd].
  apply elem_of_cons in Hin as [<-|Hin].
  - by rewrite decide_True.
  - rewrite decide_False; [by apply IH|].
    intros Heq. apply Hne. rewrite Heq.
    apply (list_elem_of_fmap_2 fst d (i, q)). done.
Qed.

Lemma coherent_lookup_scan h i :
  coherent h → occupies h i →
  ∃ q, priorityOf h i = Some q ∧ scan (_data h) i = Some q.
Proof.
  intros Hcoh Hocc.
  destruct (coherent_occupies h i Hcoh Hocc) as (q & Hq & _).
  exists q. split; [unfold priorityOf; by rewrite Hq|].
  apply scan_NoDup; [by apply coherent_NoDup|].
  apply elem_of_data_at. eauto.
Qed.

(** ** Contents as permutations *)

Lemma coherent_NoDup_data h : coherent h → NoDup (_data h).
Proof. intros Hcoh. by apply NoDup_fst_NoDup, coherent_NoDup. Qed.

Lemma removed_Permutation h s e h' :
  coherent h → data_at (_data h) s = Some e → removed h s e h' →
  _data h ≡ₚ e :: _data h'.
Proof.
  intros Hcoh He (_ & Hcoh' & Hct & _).
  assert (e ∉ _data h') as Hnin.
  { rewrite elem_of_data_at. intros Hin.
    apply Hct in Hin as (k & Hk & Hx). apply Hk.
    by apply (coherent_inj h _ _ e e). }
  apply NoDup_Permutation.
  - by apply coherent_NoDup_data.
  - apply NoDup_cons. split; [done | by apply coherent_NoDup_data].
  - intros x. rewrite elem_of_cons, !elem_of_data_at, Hct. split.
    + intros [k Hx]. destruct (decide (k = s)) as [->|?].
      * left. congruence.
      * right. by exists k.
    + intros [->|(k & _ & ?)]; eauto.
Qed.

Lemma push_Permutation h p h' :
  coherent h → _iim h p.1 < 0 → placed h (size h) p h' →
  _data h' ≡ₚ p :: _data h.
Proof.
  intros Hcoh Hneg (Hcoh' & Hct & _).
  apply NoDup_Permutation.
  - by apply coherent_NoDup_data.
  - apply NoDup_cons. split; [|by apply coherent_NoDup_data].
    rewrite elem_of_data_at. intros [k Hk].
    pose proof (data_at_range _ _ _ Hk).
    rewrite (Hcoh k p) in Hneg by done. lia.
  - intros x. rewrite elem_of_cons, !elem_of_data_at, Hct. split.
    + intros [?|(k & _ & ?)]; eauto.
    + intros [?|[k Hk]]; [by left|]. right. exists k. split; [|done].
      apply data_at_range in Hk. unfold size. lia.
Qed.

Lemma reposition_Permutation h i q p h' :
  coherent h → data_at (_data h) (_iim h i) = Some (i, q) →
  placed h (_iim h i) (i, p) h' →
  _data h' ≡ₚ <[Z.to_nat (_iim h i) := (i, p)]> (_data h).
Proof.
  intros Hcoh He (Hcoh' & Hct & _).
  pose proof (data_at_range _ _ _ He) as Hr.
  apply NoDup_Permutation.
  - by apply coherent_NoDup_data.
  - apply NoDup_fst_NoDup. rewrite list_fmap_insert. simpl.
    rewrite list_insert_id; [by apply coherent_NoDup|].
    rewrite list_lookup_fmap. unfold data_at in He.
    rewrite decide_True in He by lia. by rewrite He.
  - intros x. rewrite !elem_of_data_at, Hct. split.
    + intros [->|(k & Hk & Hx)].
      * exists (_iim h i). by rewrite data_at_insert, decide_True.
      * exists k. by rewrite data_at_insert, decide_False.
    + intros [k Hx]. rewrite data_at_insert in Hx by done.
      case_decide; [left; congruence | right; eauto].
Qed.

(** ** The frame of a priority update *)

Lemma state_eq_of_index h h' j :
  (_iim h' j = _iim h j ∨ (0 <= _iim h' j ∧ 0 <= _iim h j)) →
  state h' j = state h j.
Proof.
  intros [Heq|[H1 H2]]; unfold state; [by rewrite Heq|].
  by rewrite !decide_True by lia.
Qed.

Lemma placed_frame h i q p h' :
  Inv h → data_at (_data h) (_iim h i) = Some (i, q) →
  placed h (_iim h i) (i, p) h' →
  (∀ j, state h' j = state h j) ∧
  priorityOf h' i = Some p ∧
  (∀ j, j ≠ i → priorityOf h' j = priorityOf h j).
Proof.
  intros [Hcoh Hmem] He Hpl. pose proof Hpl as (Hcoh' & Hct & Hfr).
  pose proof (data_at_range _ _ _ He) as Hr.
  assert (∀ j, occupies h' j → occupies h j) as Hocc.
  { intros j (k & x & Hx & <-).
    destruct (proj1 (Hct x)) as [->|(k0 & _ & ?)]; [by exists k| |].
    - by exists (_iim h i), (i, q).
    - by exists k0, x. }
  assert (∀ j x, j ≠ i → data_at (_data h) (_iim h j) = Some (j, x) →
                 data_at (_data h') (_iim h' j) = Some (j, x)) as Hkeep.
  { intros j x Hne Hx.
    destruct (proj2 (Hct (j, x))) as [k Hk].
    - right. exists (_iim h j). split; [|done]. intros Heq.
      rewrite Heq in Hx. by simplify_eq.
    - by rewrite (coherent_at h' k j x). }
  split_and!.
  - intros j. apply state_eq_of_index.
    destruct (Hfr j) as [?|Hj]; [by left|]. right.
    destruct (coherent_occupies h' j Hcoh' Hj) as (_ & _ & ?).
    destruct (coherent_occupies h j Hcoh (Hocc j Hj)) as (_ & _ & ?). lia.
  - destruct (proj2 (Hct (i, p))) as [k Hk]; [by left|].
    unfold priorityOf. by rewrite (coherent_at h' k i p), Hk.
  - intros j Hne. unfold priorityOf.
    destruct (decide (0 <= _iim h j)) as [Hj|Hj].
    + destruct (Hmem j Hj) as [x Hx]. by rewrite Hx, (Hkeep j x).
    + destruct (Hfr j) as [Heq|Hj'].
      * rewrite Heq. unfold data_at. by rewrite !decide_False by lia.
      * apply Hocc in Hj'.
        destruct (coherent_occupies h j Hcoh Hj') as (_ & _ & ?). lia.
Qed.

(** ** Sequences of commands *)

Lemma run_ok_cons o os h h1 :
  o ≠ Clear → pre h o → exec o h = Some h1 → run_ok os h1 →
  run_ok (o :: os) h.
Proof.
  intros Hnc Hpre Hex Hok. simpl. split_and!; [done..|].
  intros h2 Hex2. by simplify_eq.
Qed.

Lemma run_ok_Inv os h :
  Inv h → run_ok os h → ∃ h', run os h = Some h' ∧ Inv h'.
Proof.
  revert h. induction os as [|o os IH]; intros h HInv Hok; simpl in *.
  - by exists h.
  - destruct Hok as (Hnc & Hpre & Hok).
    destruct (exec_Inv h o HInv Hpre Hnc) as (h1 & Hex & HInv1).
    rewrite Hex. simpl. apply IH; [done|]. by apply Hok.
Qed.

Lemma reachable_Inv h : reachable h → Inv h.
Proof.
  induction 1 as [|h o h' Hreach HInv Hnc Hpre Hex]; [apply Inv_init|].
  destruct (exec_Inv h o HInv Hpre Hnc) as (h2 & Hex2 & HInv2).
  by simplify_eq.
Qed.

Lemma run_ok_reachable os h :
  reachable h → run_ok os h → ∃ h', run os h = Some h' ∧ reachable h'.
Proof.
  revert h. induction os as [|o os IH]; intros h Hreach Hok; simpl in *.
  - by exists h.
  - destruct Hok as (Hnc & Hpre & Hok).
    destruct (exec_Inv h o (reachable_Inv h Hreach) Hpre Hnc)
      as (h1 & Hex & _).
    rewrite Hex. simpl.
    apply IH; [|by apply Hok]. by apply (reach_step h o h1).
Qed.

(** ** When a loop has nothing to do *)

Lemma bubble_up_stay h hole p :
  0 <= hole < size h →
  (0 < hole → ∃ q, data_at (_data h) (parent hole) = Some q ∧
                   less p q = false) →
  bubble_up h hole p = Some (move_to h p hole, hole).
Proof.
  intros Hr Hstop. unfold bubble_up. simpl. case_decide as Hpos.
  - destruct (Hstop Hpos) as (q & -> & Hlt). simpl. rewrite Hlt.
    by rewrite move_in_range.
  - by rewrite move_in_range.
Qed.

Lemma bubble_down_stay h hole p len :
  0 <= hole < size h → len <= size h →
  (∀ c e, chosen (_data h) hole len c →
          data_at (_data h) c = Some e → less e p = false) →
  bubble_down h hole p len = Some (move_to h p hole, hole).
Proof.
  intros Hr Hlen Hstop.
  destruct (bubble_down_loop_rule p len
              (λ h1 hole1, h1 = h ∧ hole1 = hole)
              (λ h' k, h' = move_to h p hole ∧ k = hole))
    with (fuel := S (Z.to_nat len)) (h := h) (hole := hole)
    as (h' & k & Hbd & -> & ->); try slot.
  - by intros ? ? [-> ->].
  - intros ? ? c e [-> ->] Hch He Hlt.
    rewrite (Hstop c e Hch He) in Hlt. done.
  - by intros ? ? [-> ->] _.
Qed.

(** ** Heap order through the operations *)

Section OpOrder.

Context `{!StrictWeak CMP}.

Lemma pop_back_order h2 h' :
  heap_order_upto (_data h2) (size h2 - 1) →
  pop_back h2 = Some h' → heap_order h'.
Proof.
  intros Hho Hpop.
  destruct (decide (0 < size h2)) as [Hpos|Hz].
  - destruct (pop_back_spec h2 Hpos) as (h'' & Hpop' & Hsz & _ & Hat).
    assert (h'' = h') as -> by congruence.
    intros k e ep Hk. rewrite !Hat.
    pose proof (parent_spec k ltac:(lia)) as [? ?].
    rewrite !decide_True by lia. apply Hho. lia.
  - unfold pop_back, size in *. destruct (_data h2); [done | simpl in Hz; lia].
Qed.

Lemma pop_order h h' : heap_order h → pop h = Some h' → heap_order h'.
Proof.
  intros Hho. unfold pop.
  destruct (data_at (_data h) 0) as [e|] eqn:He; [|done]. simpl.
  pose proof (data_at_range _ _ _ He) as Hr.
  assert (heap_order_upto (_data h) (size h - 1)) as Hho'.
  { apply (heap_order_upto_mono _ (size h)); [done | lia]. }
  case_decide as Hn; [|by apply pop_back_order].
  destruct (data_at (_data h) (size h - 1)) as [last|] eqn:Hlast; [|done].
  simpl.
  destruct (bubble_down_order (size h - 1)
              (iim_set h e.1 (State_to_int POST_HEAP)) 0 last)
    as (h2 & k & -> & Hsz & Hord); try slot.
  - rewrite size_iim_set. lia.
  - apply ho_hole_of_heap_order; [done | unfold size; simpl; lia].
  - simpl. apply pop_back_order. by rewrite Hsz.
Qed.

Lemma erase_order h i h' : heap_order h → erase h i = Some h' → heap_order h'.
Proof.
  intros Hho. unfold erase.
  destruct (data_at (_data h) (_iim h i)) as [e|] eqn:He; [|done]. simpl.
  pose proof (data_at_range _ _ _ He) as Hr.
  assert (heap_order_upto (_data h) (size h - 1)) as Hho'.
  { apply (heap_order_upto_mono _ (size h)); [done | lia]. }
  case_decide as Hn; [|by apply pop_back_order].
  destruct (data_at (_data h) (size h - 1)) as [last|] eqn:Hlast; [|done].
  simpl.
  destruct (bubble_up_order (size h - 1)
              (iim_set h e.1 (State_to_int POST_HEAP)) (_iim h i) last)
    as (h2 & k & -> & Hsz & Hcase); try slot.
  { rewrite size_iim_set. lia. }
  { apply ho_hole_of_heap_order; [done | unfold size; simpl; lia]. }
  simpl. rewrite size_iim_set in Hsz.
  destruct Hcase as [(-> & Hh2 & Ha) | [Hlt Hord]].
  - rewrite decide_True by done.
    assert (∀ k, k ≠ _iim h i → data_at (_data h2) k = data_at (_data h) k)
      as Hoff.
    { intros k Hk. rewrite Hh2, data_at_move_to by (rewrite size_iim_set; lia).
      by rewrite decide_False. }
    rewrite Hoff, Hlast by lia. simpl.
    destruct (bubble_down_order (size h - 1) h2 (_iim h i) last)
      as (h3 & k3 & -> & Hsz3 & Hord); try slot.
    + apply (ho_hole_off_hole (_data h)); [done|].
      apply ho_hole_of_heap_order; [done | unfold size; simpl; lia].
    + by apply (above_ok_off_hole (_data h)).
    + simpl. apply pop_back_order. by rewrite Hsz3, Hsz.
  - rewrite decide_False by lia. apply pop_back_order. by rewrite Hsz.
Qed.

Lemma reposition_up_order h idx e p h' k :
  heap_order h → data_at (_data h) idx = Some e → less e p = false →
  bubble_up h idx p = Some (h', k) → heap_order h'.
Proof.
  intros Hho He Hle Hup. pose proof (data_at_range _ _ _ He) as Hr.
  destruct (bubble_up_heap_order (size h) h idx p)
    as (h2 & k2 & Hup2 & Hsz & Hord); try slot.
  - apply ho_hole_of_heap_order; [done | unfold size; lia].
  - intros k0 e0 Hk0 Hpk He0. apply less_negtrans with e; [|done].
    apply (Hho k0); [done..|]. by rewrite Hpk.
  - assert (h2 = h') as -> by congruence. unfold heap_order. by rewrite Hsz.
Qed.

Lemma reposition_down_order h idx e p h' k :
  heap_order h → data_at (_data h) idx = Some e → less p e = false →
  bubble_down h idx p (size h) = Some (h', k) → heap_order h'.
Proof.
  intros Hho He Hle Hup. pose proof (data_at_range _ _ _ He) as Hr.
  destruct (bubble_down_order (size h) h idx p)
    as (h2 & k2 & Hup2 & Hsz & Hord); try slot.
  - apply ho_hole_of_heap_order; [done | unfold size; lia].
  - intros Hpos ep Hep. apply less_negtrans with e; [done|].
    apply (Hho idx); [unfold size; lia | done..].
  - assert (h2 = h') as -> by congruence. unfold heap_order. by rewrite Hsz.
Qed.

Lemma decrease_order h i p q h' :
  heap_order h → priorityOf h i = Some q → CMP q p = false →
  decrease h i p = Some h' → heap_order h'.
Proof.
  intros Hho Hq Hle. unfold decrease, priorityOf in *.
  destruct (data_at (_data h) (_iim h i)) as [e|] eqn:He; [|done].
  injection Hq as <-.
  destruct (bubble_up h (_iim h i) (i, p)) as [[h2 k]|] eqn:Hup; [|done].
  intros [= <-].
  by apply (reposition_up_order h (_iim h i) e (i, p) h2 k).
Qed.

Lemma increase_order h i p q h' :
  heap_order h → priorityOf h i = Some q → CMP p q = false →
  increase h i p = Some h' → heap_order h'.
Proof.
  intros Hho Hq Hle. unfold increase, priorityOf in *.
  destruct (data_at (_data h) (_iim h i)) as [e|] eqn:He; [|done].
  injection Hq as <-.
  destruct (bubble_down h (_iim h i) (i, p) (size h)) as [[h2 k]|] eqn:Hup;
    [|done].
  intros [= <-].
  by apply (reposition_down_order h (_iim h i) e (i, p) h2 k).
Qed.

Lemma push_order h p h' : heap_order h → push h p = Some h' → heap_order h'.
Proof.
  intros Hho. unfold push.
  assert (0 <= size h) as Hnn by (unfold size; lia).
  destruct (bubble_up_heap_order (size h + 1) (resize_plus_one h) (size h) p)
    as (h2 & k2 & -> & Hsz & Hord).
  - lia.
  - rewrite size_resize_plus_one. lia.
  - split.
    + intros k e ep Hk Hne _.
      pose proof (parent_spec k ltac:(lia)) as [? ?].
      rewrite !data_at_resize_plus_one, !decide_False by lia.
      apply Hho. lia.
    + intros k e eg Hk Hpk.
      pose proof (parent_spec k ltac:(lia)) as [? ?]. lia.
  - intros k e Hk Hpk.
    pose proof (parent_spec k ltac:(lia)) as [? ?]. lia.
  - intros [= <-]. unfold heap_order.
    by rewrite Hsz, size_resize_plus_one.
Qed.

Lemma set_order h i p h' : heap_order h → set h i p = Some h' → heap_order h'.
Proof.
  intros Hho. unfold set. case_decide as Hneg; [by apply push_order|].
  destruct (data_at (_data h) (_iim h i)) as [e|] eqn:He; [|done]. simpl.
  destruct (CMP p e.2) eqn:Hcmp.
  - destruct (bubble_up h (_iim h i) (i, p)) as [[h2 k]|] eqn:Hup; [|done].
    intros [= <-].
    apply (reposition_up_order h (_iim h i) e (i, p) h2 k); try done.
    unfold less. by apply cmp_asym.
  - destruct (bubble_down h (_iim h i) (i, p) (size h)) as [[h2 k]|] eqn:Hup;
      [|done].
    intros [= <-].
    by apply (reposition_down_order h (_iim h i) e (i, p) h2 k).
Qed.

Lemma iim_set_order h i v : heap_order h → heap_order (iim_set h i v).
Proof. done. Qed.

Lemma set_state_order h i st h' :
  heap_order h → set_state h i st = Some h' → heap_order h'.
Proof.
  intros Hho.
  assert (((if decide (state h i = Some IN_HEAP) then erase h i else Some h)
           ≫= λ h1, Some (iim_set h1 i (State_to_int st))) = Some h' →
          heap_order h') as Hgo.
  { case_decide.
    - destruct (erase h i) as [h1|] eqn:Her; [|done]. simpl. intros [= <-].
      apply iim_set_order. by apply (erase_order h i).
    - simpl. intros [= <-]. by apply iim_set_order. }
  destruct st; simpl; [by intros [= <-] | done..].
Qed.

Lemma exec_order h o h' :
  Inv h → heap_order h → pre h o → exec o h = Some h' → heap_order h'.
Proof.
  intros [Hcoh Hmem] Hho Hpre.
  destruct o as [i p| |i|i p|i p|i p|i j|i st|]; simpl in *.
  - apply push_order. done.
  - by apply pop_order.
  - by apply erase_order.
  - by apply set_order.
  - destruct Hpre as [Hin Hle]. apply state_IN_HEAP in Hin.
    destruct (Hmem i Hin) as [q Hq].
    apply (decrease_order h i p q); [done | |].
    + unfold priorityOf. by rewrite Hq.
    + apply Hle. unfold priorityOf. by rewrite Hq.
  - destruct Hpre as [Hin Hle]. apply state_IN_HEAP in Hin.
    destruct (Hmem i Hin) as [q Hq].
    apply (increase_order h i p q); [done | |].
    + unfold priorityOf. by rewrite Hq.
    + apply Hle. unfold priorityOf. by rewrite Hq.
  - by apply replace_order.
  - by apply set_state_order.
  - intros [= <-] k e ep Hk. unfold size in Hk. simpl in Hk. lia.
Qed.

Lemma reachable_invariants h : reachable h → Inv h ∧ heap_order h.
Proof.
  intros Hreach. split; [by apply reachable_Inv|].
  induction Hreach as [|h o h' Hreach Hho Hnc Hpre Hex].
  - intros k e ep Hk. unfold size in Hk. simpl in Hk. lia.
  - apply (exec_order h o h'); [by apply reachable_Inv | done..].
Qed.

(** ** The root is a minimum; filling and draining *)

Lemma root_min h e0 :
  heap_order h → data_at (_data h) 0 = Some e0 →
  ∀ k x, data_at (_data h) k = Some x → less x e0 = false.
Proof.
  intros Hho H0.
  assert (∀ n k x, Z.to_nat k = n → data_at (_data h) k = Some x →
                   less x e0 = false) as Hind; [|by eauto].
  induction n as [n IH] using lt_wf_ind. intros k x Hn Hx.
  pose proof (data_at_range _ _ _ Hx) as Hr.
  destruct (decide (k = 0)) as [->|Hk].
  - assert (x = e0) as -> by congruence. apply less_irrefl.
  - pose proof (parent_spec k ltac:(lia)) as [? ?].
    destruct (data_at_is_Some (_data h) (parent k)) as [xp Hxp]; [lia|].
    apply less_negtrans with xp.
    + apply (Hho k); [unfold size; lia | done..].
    + apply (IH (Z.to_nat (parent k))) with (parent k); [lia | done..].
Qed.

Lemma push_all_spec l h :
  coherent h → heap_order h → NoDup l.*1 →
  (∀ p, p ∈ l → _iim h p.1 < 0) →
  ∃ h', push_all l h = Some h' ∧ coherent h' ∧ heap_order h' ∧
        _data h' ≡ₚ l ++ _data h.
Proof.
  revert h. induction l as [|p l IH]; intros h Hcoh Hho Hnd Hpre; simpl.
  - by exists h.
  - apply NoDup_cons in Hnd as [Hp Hnd].
    destruct (push_placed h p Hcoh) as (h1 & Hpush & Hsz & Hpl).
    { apply Hpre. by left. }
    rewrite Hpush. simpl.
    pose proof (push_Permutation h p h1 Hcoh (Hpre p ltac:(by left)) Hpl)
      as Hperm.
    pose proof Hpl as (Hcoh1 & Hct & Hfr).
    destruct (IH h1) as (h' & -> & Hcoh' & Hho' & Hperm'); try done.
    + by apply (push_order h p).
    + intros x Hx. destruct (Hfr x.1) as [->|Hocc].
      { apply Hpre. by right. }
      exfalso. destruct Hocc as (k & y & Hy & Heq).
      destruct (proj1 (Hct y)) as [->|(k0 & _ & Hy0)]; [by exists k| |].
      * apply Hp. rewrite Heq. by apply (list_elem_of_fmap_2 fst l x).
      * pose proof (Hpre x ltac:(by right)) as Hneg.
        rewrite <- Heq, (coherent_at h k0 y.1 y.2) in Hneg.
        -- apply data_at_range in Hy0. lia.
        -- done.
        -- by destruct y.
    + exists h'. split_and!; try done.
      rewrite Hperm', Hperm. by rewrite Permutation_middle.
Qed.

Lemma drain_spec n h :
  coherent h → heap_order h → size h = Z.of_nat n →
  ∃ out h', drain n h = Some (out, h') ∧ out ≡ₚ _data h ∧
    StronglySorted prio_le out.*2 ∧ empty h' = true.
Proof.
  revert h. induction n as [|n IH]; intros h Hcoh Hho Hsz; simpl.
  - exists [], h. unfold size, empty in *.
    destruct (_data h) eqn:Hd; [|simpl in Hsz; lia].
    split_and!; try done. constructor.
  - destruct (data_at_is_Some (_data h) 0) as [e He]; [unfold size in *; lia|].
    unfold top, prio. rewrite He. simpl.
    destruct (pop_removed h e Hcoh He) as (h1 & Hpop & Hrem).
    rewrite Hpop. simpl.
    pose proof (removed_Permutation h 0 e h1 Hcoh He Hrem) as Hperm.
    pose proof Hrem as (Hsz1 & Hcoh1 & _).
    pose proof (pop_order h h1 Hho Hpop) as Hho1.
    destruct (IH h1) as (out & h' & -> & Hout & Hsorted & Hemp);
      [done | done | lia |]. simpl.
    exists (e :: out), h'. destruct e as [i p]. simpl.
    split_and!; try done.
    + by rewrite Hperm, Hout.
    + constructor; [done|]. apply Forall_fmap, Forall_forall.
      intros x Hx. unfold prio_le. simpl.
      assert (x ∈ _data h) as Hin.
      { rewrite Hperm. right. by rewrite <- Hout. }
      apply elem_of_data_at in Hin as [k Hk].
      by apply (root_min h (i, p) Hho He k x).
Qed.

Lemma placed_in_heap h s i p h' :
  placed h s (i, p) h' → state h' i = Some IN_HEAP ∧ priorityOf h' i = Some p.
Proof.
  intros (Hcoh' & Hct & _).
  destruct (proj2 (Hct (i, p))) as [k Hk]; [by left|].
  pose proof (data_at_range _ _ _ Hk).
  pose proof (coherent_at h' k i p Hcoh' Hk) as Hi.
  split; [apply state_IN_HEAP; lia|].
  unfold priorityOf. by rewrite Hi, Hk.
Qed.

(** On a heap in order, a [set] whose direction the client could have
    announced does exactly what the announced call does. *)
Lemma exec_via_set h o :
  Inv h → heap_order h → pre h o → exec (via_set o) h = exec o h.
Proof.
  intros [Hcoh Hmem] Hho Hpre. destruct o as [| | | |i p|i p| | |]; try done;
    simpl in *; destruct Hpre as [Hin Hle]; apply state_IN_HEAP in Hin;
    destruct (Hmem i Hin) as [q Hq];
    pose proof (data_at_range _ _ _ Hq) as Hr;
    specialize (Hle q); unfold priorityOf in Hle; rewrite Hq in Hle;
    specialize (Hle eq_refl);
    unfold set; rewrite decide_False by lia; rewrite Hq; simpl.
  - unfold decrease. destruct (CMP p q) eqn:Hpq; [done|].
    rewrite bubble_up_stay, bubble_down_stay; try done.
    + intros c e Hch He. pose proof (chosen_child _ _ _ _ Hch) as [? ?].
      apply less_negtrans with (i, q); [|done].
      apply (Hho c); [unfold size in *; lia | done |].
      by rewrite (parent_unique c (_iim h i)) by lia.
    + intros Hpos.
      pose proof (parent_spec (_iim h i) Hpos) as [? ?].
      destruct (data_at_is_Some (_data h) (parent (_iim h i))) as [x Hx];
        [lia|].
      exists x. split; [done|]. apply less_negtrans with (i, q); [done|].
      apply (Hho (_iim h i)); [unfold size; lia | done..].
  - unfold increase. by rewrite Hle.
Qed.

Lemma run_via_set os h :
  Inv h → heap_order h → run_ok os h →
  ∃ h', run os h = Some h' ∧ run (via_set <$> os) h = Some h' ∧
        Inv h' ∧ heap_order h'.
Proof.
  revert h. induction os as [|o os IH]; intros h HInv Hho Hok; simpl in *.
  - by exists h.
  - destruct Hok as (Hnc & Hpre & Hok).
    rewrite (exec_via_set h o HInv Hho Hpre).
    destruct (exec_Inv h o HInv Hpre Hnc) as (h1 & Hex & HInv1).
    rewrite Hex. simpl. apply IH; [done | | by apply Hok].
    by apply (exec_order h o h1).
Qed.

End OpOrder.

(** * The claims *)

(** C1. Heap-order invariant: in every heap reached from the empty heap
    over an all-[PRE_HEAP] map by [push], [pop], [erase], [set],
    [decrease], [increase], [replace] and the state setter, each called
    within its precondition, no occupied non-root slot holds an entry that
    compares less than the entry of its parent slot.  Each such call
    returns, so the sequence can always go on. *)
Theorem heap_order_invariant `{!StrictWeak CMP} h :
  reachable h →
  (∀ k e ep, 0 < k < size h →
     data_at (_data h) k = Some e → data_at (_data h) (parent k) = Some ep →
     less e ep = false) ∧
  (∀ o, o ≠ Clear → pre h o → ∃ h', exec o h = Some h' ∧ reachable h').
Proof.
  intros Hreach. destruct (reachable_invariants h Hreach) as [HInv Hho].
  split; [exact Hho|]. intros o Hnc Hpre.
  destruct (exec_Inv h o HInv Hpre Hnc) as (h' & Hex & _).
  exists h'. split; [done|]. by apply (reach_step h o h').
Qed.

(** C2. Index coherence after every public operation: from a heap
    satisfying invariants 3 and 4, every mutator called within its
    precondition ([clear] and the state setter included) returns, and in the
    heap it leaves every slot [k] below [size] holds an item whose index
    value is exactly [k]; hence for every item sitting in the array,
    [operator[]] returns the priority that a linear scan of the array finds
    for that item. *)
Theorem index_coherence_invariant h o :
  Inv h → pre h o →
  ∃ h', exec o h = Some h' ∧
    (∀ k e, 0 <= k < size h' →
       data_at (_data h') k = Some e → _iim h' e.1 = k) ∧
    (∀ i, occupies h' i →
       ∃ q, priorityOf h' i = Some q ∧ scan (_data h') i = Some q).
Proof.
  intros HInv Hpre.
  destruct (exec_coherent h o HInv Hpre) as (h' & Hex & Hcoh).
  exists h'. split_and!; [done | done |].
  intros i Hocc. by apply coherent_lookup_scan.
Qed.

(** C3, as the code has it. When [bubble_down] finds a full pair of
    children, the left child is the one compared with the relocated entry
    exactly when it strictly precedes the right child; in every other case,
    a tie included, it is the right child.  The loop then either moves that
    child up and continues from its slot, or stops. *)
Theorem bubble_down_prefers_right fuel h hole p length l r :
  second_child hole < length →
  data_at (_data h) (second_child hole - 1) = Some l →
  data_at (_data h) (second_child hole) = Some r →
  let c := pick_child l r (second_child hole) in
  (c = second_child hole - 1 ↔ less l r = true) ∧
  (c = second_child hole ↔ less l r = false) ∧
  (less l r = false → less r l = false → c = second_child hole) ∧
  bubble_down_loop (S fuel) h hole p length =
    (e ← data_at (_data h) c;
     if less e p then h1 ← move h e hole; bubble_down_loop fuel h1 c p length
     else h1 ← move h p hole; Some (h1, hole)).
Proof.
  intros Hfull Hl Hr c. subst c. split_and!.
  - unfold pick_child. destruct (less l r); split; (done || lia).
  - unfold pick_child. destruct (less l r); split; (done || lia).
  - intros Hlr _. unfold pick_child. by rewrite Hlr.
  - simpl. rewrite decide_True by done. rewrite Hl, Hr. simpl.
    destruct (data_at (_data h) (pick_child l r (second_child hole)));
      [|done].
    simpl. by destruct (less p0 p).
Qed.

(** C4. [erase(i)] with [i] in the heap: the call returns, [i]'s index
    value is [POST_HEAP], the heap is one entry shorter and satisfies
    invariants 2, 3 and 4.  When [i]'s slot [s] is not the last slot [n],
    the last entry is first bubbled up from [s]; if that returns [s] the
    entry was only written into [s] and is then bubbled down from [s];
    if it returns another slot, that slot is above [s] and no bubble-down
    follows.  Then the last slot is dropped. *)
Theorem erase_restores_order `{!StrictWeak CMP} h i :
  Inv h → heap_order h → state h i = Some IN_HEAP →
  ∃ h', erase h i = Some h' ∧
    _iim h' i = State_to_int POST_HEAP ∧ state h' i = Some POST_HEAP ∧
    size h' = size h - 1 ∧ heap_order h' ∧ Inv h' ∧
    let s := _iim h i in
    let n := size h - 1 in
    let h1 := iim_set h i (State_to_int POST_HEAP) in
    if decide (s < n) then
      ∃ last h2 k,
        data_at (_data h) n = Some last ∧
        bubble_up h1 s last = Some (h2, k) ∧
        if decide (k = s) then
          h2 = move_to h1 last s ∧
          ∃ h3 k3, bubble_down h2 s last n = Some (h3, k3) ∧
                   pop_back h3 = Some h'
        else k < s ∧ pop_back h2 = Some h'
    else pop_back h1 = Some h'.
Proof.
  intros HInv Hho Hin. pose proof HInv as [Hcoh Hmem].
  apply state_IN_HEAP in Hin. destruct (Hmem i Hin) as [q Hq].
  pose proof (data_at_range _ _ _ Hq) as Hr.
  destruct (erase_removed h i q Hcoh Hq) as (h' & Her & Hrem).
  pose proof (removed_membership _ _ _ _ Hcoh Hq Hmem Hrem) as Hmem'.
  pose proof Hrem as (Hsz & Hcoh' & _ & Hpost & _). simpl in Hpost.
  exists h'. split_and!; try done.
  - by apply state_of_index.
  - by apply (erase_order h i).
  - revert Her. unfold erase. rewrite Hq. simpl.
    destruct (decide (_iim h i < size h - 1)) as [Hn|Hn]; [|done].
    destruct (data_at (_data h) (size h - 1)) as [last|] eqn:Hlast; [|done].
    simpl.
    destruct (bubble_up_order (size h - 1)
                (iim_set h i (State_to_int POST_HEAP)) (_iim h i) last)
      as (h2 & k & Hup & Hsz2 & Hcase); try slot.
    { rewrite size_iim_set. lia. }
    { apply ho_hole_of_heap_order; [|unfold size; simpl; lia].
      apply (heap_order_upto_mono _ (size h)); [done | lia]. }
    rewrite Hup. simpl. intros Her. exists last, h2, k.
    split; [done|]. split; [done|].
    destruct Hcase as [(-> & Hh2 & _) | [Hlt _]].
    + rewrite decide_True by done. rewrite decide_True in Her by done.
      split; [done|].
      assert (data_at (_data h2) (size h - 1) = Some last) as Hlast2.
      { rewrite Hh2, data_at_move_to by (rewrite size_iim_set; lia).
        by rewrite decide_False by lia. }
      rewrite Hlast2 in Her. simpl in Her.
      destruct (bubble_down h2 (_iim h i) last (size h - 1))
        as [[h3 k3]|]; [|done].
      by exists h3, k3.
    + rewrite decide_False by lia. rewrite decide_False in Her by lia.
      done.
Qed.

(** C5. Sorted extraction: take pairs with pairwise distinct items whose
    index values read [PRE_HEAP], and an empty heap over that map.  Pushing
    them all returns; [length l] rounds of [top]/[prio]/[pop] then return,
    deliver exactly the pushed pairs, with priorities in non-decreasing
    order (no later priority compares less than an earlier one), and leave
    the heap empty. *)
Theorem sorted_extraction `{!StrictWeak CMP} l m :
  NoDup l.*1 →
  (∀ p, p ∈ l → m p.1 = State_to_int PRE_HEAP) →
  ∃ h out h',
    push_all l (mkBinHeap [] m) = Some h ∧
    drain (length l) h = Some (out, h') ∧
    out ≡ₚ l ∧
    Sorted prio_le out.*2 ∧ StronglySorted prio_le out.*2 ∧
    empty h' = true.
Proof.
  intros Hnd Hpre.
  destruct (push_all_spec l (mkBinHeap [] m)) as (h & Hpush & Hcoh & Hho & Hp);
    try done.
  - intros k e Hk He. apply data_at_range in He. simpl in He. lia.
  - intros k e ep Hk. unfold size in Hk. simpl in Hk. lia.
  - intros p Hp. simpl. rewrite (Hpre p Hp). unfold State_to_int. lia.
  - simpl in Hp. rewrite app_nil_r in Hp.
    destruct (drain_spec (length l) h) as (out & h' & Hdr & Hout & Hs & He);
      try done.
    { unfold size. by rewrite Hp. }
    exists h, out, h'. split_and!; try done.
    + by rewrite Hout.
    + by apply StronglySorted_Sorted.
Qed.

(** C6. [set] is an upsert.  With a negative index value it is [push];
    otherwise it bubbles up when the new priority compares less than the
    stored one and bubbles down when it does not.  Hence, from a heap
    satisfying the invariants, a sequence of calls that meet their
    preconditions and the same sequence with every [decrease] and
    [increase] replaced by [set] both return, leave the same heap, and so
    deliver the same pop-order. *)
Theorem set_is_upsert `{!StrictWeak CMP} :
  (∀ h i p, _iim h i < 0 → set h i p = push h (i, p)) ∧
  (∀ h i p e, ¬ _iim h i < 0 → data_at (_data h) (_iim h i) = Some e →
     set h i p =
     if CMP p e.2 then fst <$> bubble_up h (_iim h i) (i, p)
     else fst <$> bubble_down h (_iim h i) (i, p) (size h)) ∧
  (∀ h os, Inv h → heap_order h → run_ok os h →
     ∃ h' out, run os h = Some h' ∧ run (via_set <$> os) h = Some h' ∧
       (run os h ≫= pop_sequence (length (_data h'))) = Some out ∧
       (run (via_set <$> os) h ≫= pop_sequence (length (_data h'))) = Some out).
Proof.
  split_and!.
  - intros h i p Hneg. unfold set. by rewrite decide_True.
  - intros h i p e Hin He. unfold set. rewrite decide_False by done.
    by rewrite He.
  - intros h os HInv Hho Hok.
    destruct (run_via_set os h HInv Hho Hok)
      as (h' & Hrun & Hset & [Hcoh' _] & Hho').
    destruct (drain_spec (length (_data h')) h') as (out & h2 & Hdr & _);
      try done.
    exists h', out. rewrite Hrun, Hset. simpl. unfold pop_sequence.
    by rewrite Hdr.
Qed.

(** C7. [replace(i, j)] with [i] in the heap and [j] not in it: the two
    index values are swapped and no other, the entry's item becomes [j] and
    its priority stays, so [j] is now in the heap at [i]'s slot with [i]'s
    priority ([operator[]], and [top]/[prio] when that slot is the root,
    report it under [j]), [state(i)] is no longer [IN_HEAP], the array of
    priorities is unchanged, and invariants 3 and 4 still hold. *)
Theorem replace_renames h i j :
  Inv h → state h i = Some IN_HEAP → state h j ≠ Some IN_HEAP →
  ∃ h' q, replace h i j = Some h' ∧ priorityOf h i = Some q ∧
    (_iim h' i = _iim h j ∧ _iim h' j = _iim h i ∧
     ∀ x, x ≠ i → x ≠ j → _iim h' x = _iim h x) ∧
    data_at (_data h') (_iim h i) = Some (j, q) ∧
    priorityOf h' j = Some q ∧
    state h' j = Some IN_HEAP ∧ state h' i ≠ Some IN_HEAP ∧
    (_data h').*2 = (_data h).*2 ∧
    (top h = Some i → top h' = Some j) ∧ prio h' = prio h ∧
    Inv h'.
Proof.
  intros HInv Hi Hj. pose proof HInv as [Hcoh Hmem].
  rewrite state_IN_HEAP in Hi, Hj.
  destruct (Hmem i Hi) as [q Hq].
  pose proof (data_at_range _ _ _ Hq) as Hr.
  assert (i ≠ j) as Hij by (intros ->; lia).
  pose proof (replace_eq h i j q Hq) as Hrep.
  eexists _, q. split; [exact Hrep|].
  assert (∀ k, data_at (<[Z.to_nat (_iim h i) := (j, q)]> (_data h)) k =
               if decide (k = _iim h i) then Some (j, q)
               else data_at (_data h) k) as Hat
    by (intros; by apply data_at_insert).
  split_and!; simpl.
  - unfold priorityOf. by rewrite Hq.
  - by rewrite fn_lookup_insert_ne, fn_lookup_insert.
  - apply fn_lookup_insert.
  - intros x Hxi Hxj. by rewrite !fn_lookup_insert_ne.
  - by rewrite Hat, decide_True.
  - unfold priorityOf. simpl.
    by rewrite fn_lookup_insert, Hat, decide_True.
  - apply state_IN_HEAP. simpl. by rewrite fn_lookup_insert.
  - rewrite state_IN_HEAP. simpl.
    rewrite fn_lookup_insert_ne, fn_lookup_insert by done. lia.
  - rewrite list_fmap_insert. simpl. apply list_insert_id.
    rewrite list_lookup_fmap. unfold data_at in Hq.
    rewrite decide_True in Hq by lia. by rewrite Hq.
  - unfold top. simpl. rewrite Hat.
    destruct (data_at (_data h) 0) as [e|] eqn:He; [|done]. simpl.
    intros [= Hei]. rewrite decide_True; [done|].
    rewrite <- (Hcoh 0 e), Hei; [done | | done].
    by apply data_at_range in He.
  - unfold prio. simpl. rewrite Hat. case_decide as H0; [|done].
    by rewrite H0, Hq.
  - apply (replace_Inv h i j); [done | done | lia | done].
Qed.

(** C8. State transitions.  An index value of [PRE_HEAP] reads as state
    [PRE_HEAP] (so every item of the initial heap does).  From a heap
    satisfying the invariants: [push] of an item with a negative index value
    returns and leaves it [IN_HEAP]; [pop] leaves the former top item
    [POST_HEAP]; [erase] leaves the erased item [POST_HEAP]; the state
    setter with [PRE_HEAP] or [POST_HEAP] on an item in the heap erases it,
    then overwrites its index value, so that [state] reports the requested
    state, with the invariants intact; the state setter with [IN_HEAP]
    changes nothing. *)
Theorem state_transitions `{!StrictWeak CMP} :
  (∀ h i, _iim h i = State_to_int PRE_HEAP → state h i = Some PRE_HEAP) ∧
  (∀ i, state init i = Some PRE_HEAP) ∧
  (∀ h i, set_state h i IN_HEAP = Some h) ∧
  ∀ h, Inv h → heap_order h →
    (∀ i p, _iim h i < 0 →
       ∃ h', push h (i, p) = Some h' ∧ state h' i = Some IN_HEAP) ∧
    (∀ i, top h = Some i →
       ∃ h', pop h = Some h' ∧ state h' i = Some POST_HEAP) ∧
    (∀ i, state h i = Some IN_HEAP →
       ∃ h', erase h i = Some h' ∧ state h' i = Some POST_HEAP) ∧
    (∀ i st, state h i = Some IN_HEAP → st ≠ IN_HEAP →
       ∃ h1 h', erase h i = Some h1 ∧
         set_state h i st = Some h' ∧
         h' = iim_set h1 i (State_to_int st) ∧
         state h' i = Some st ∧ Inv h' ∧ heap_order h').
Proof.
  split_and!.
  - intros h i Hi. by apply state_of_index.
  - intros i. by apply state_of_index.
  - done.
  - intros h HInv Hho. pose proof HInv as [Hcoh Hmem]. split_and!.
    + intros i p Hneg.
      destruct (push_placed h (i, p) Hcoh Hneg) as (h' & Hpush & _ & Hpl).
      exists h'. split; [done|]. by apply (placed_in_heap h (size h) i p).
    + intros i Htop. unfold top in Htop.
      destruct (data_at (_data h) 0) as [e|] eqn:He; [|done].
      injection Htop as <-.
      destruct (pop_removed h e Hcoh He) as (h' & Hpop & Hrem).
      exists h'. split; [done|]. apply state_of_index; [|done].
      apply Hrem.
    + intros i Hin. apply state_IN_HEAP in Hin.
      destruct (Hmem i Hin) as [q Hq].
      destruct (erase_removed h i q Hcoh Hq) as (h' & Her & Hrem).
      exists h'. split; [done|]. apply state_of_index; [|done].
      apply Hrem.
    + intros i st Hin Hst. pose proof Hin as Hin'.
      apply state_IN_HEAP in Hin'. destruct (Hmem i Hin') as [q Hq].
      destruct (erase_removed h i q Hcoh Hq) as (h1 & Her & Hrem).
      assert (set_state h i st = Some (iim_set h1 i (State_to_int st)))
        as Hset.
      { destruct st; [done | ..]; simpl;
          rewrite decide_True by done; by rewrite Her. }
      exists h1, (iim_set h1 i (State_to_int st)).
      split_and!; try done.
      * apply state_of_index; [|done]. simpl. apply fn_lookup_insert.
      * by apply (set_state_Inv h i st).
      * by apply (set_state_order h i st).
Qed.

(** C9. [clear] empties the entry storage and touches no index value:
    afterwards [size] is 0 and [empty] is true, while the whole item-int map
    is the one from before the call. *)
Theorem clear_keeps_index h :
  size (clear h) = 0 ∧ empty (clear h) = true ∧
  _data (clear h) = [] ∧ ∀ i, _iim (clear h) i = _iim h i.
Proof. done. Qed.

(** C10. Frame of [decrease], [increase] and [set] on an item [i] that is
    in the heap (invariants 3 and 4 assumed; the direction preconditions are
    not needed): the call returns, the heap keeps its size, every item keeps
    its [state] (so the set of items in the heap is the same), [i]'s stored
    priority is now [p], every other item's priority lookup is what it was,
    and the array is a permutation of the old array with [i]'s entry
    replaced by [(i, p)]. *)
Theorem priority_update_frame h i p o :
  Inv h → state h i = Some IN_HEAP →
  o = Decrease i p ∨ o = Increase i p ∨ o = SetPrio i p →
  ∃ h', exec o h = Some h' ∧ size h' = size h ∧
    (∀ j, state h' j = state h j) ∧
    priorityOf h' i = Some p ∧
    (∀ j, j ≠ i → priorityOf h' j = priorityOf h j) ∧
    _data h' ≡ₚ <[Z.to_nat (_iim h i) := (i, p)]> (_data h).
Proof.
  intros HInv Hi Ho. pose proof HInv as [Hcoh Hmem].
  rewrite state_IN_HEAP in Hi. destruct (Hmem i Hi) as [q Hq].
  assert (∃ h', exec o h = Some h' ∧ size h' = size h ∧
                placed h (_iim h i) (i, p) h') as (h' & Hex & Hsz & Hpl).
  { destruct Ho as [->|[->| ->]]; simpl.
    - by apply (decrease_placed h i q).
    - by apply (increase_placed h i q).
    - destruct (set_placed h i p Hcoh Hmem) as (h' & Hset & Hcase).
      rewrite decide_False in Hcase by lia. by exists h'. }
  exists h'. split; [done|]. split; [done|].
  destruct (placed_frame h i q p h' HInv Hq Hpl) as (? & ? & ?).
  split_and!; try done. by apply (reposition_Permutation h i q).
Qed.

(** * Further properties of the code *)

(** ** What a call leaves for the other items *)

Lemma placed_frame_any h s i p h' :
  Inv h → placed h s (i, p) h' →
  (∀ e, data_at (_data h) s = Some e → e.1 = i) →
  state h' i = Some IN_HEAP ∧ priorityOf h' i = Some p ∧
  ∀ j, j ≠ i → state h' j = state h j ∧ priorityOf h' j = priorityOf h j.
Proof.
  intros [Hcoh Hmem] Hpl Hs. pose proof Hpl as (Hcoh' & Hct & Hfr).
  destruct (placed_in_heap h s i p h' Hpl) as [Hst Hp].
  split; [done|]. split; [done|]. intros j Hne.
  assert (occupies h' j → occupies h j) as Hocc.
  { intros (k & x & Hx & Hj).
    destruct (proj1 (Hct x)) as [->|(k0 & _ & ?)]; [by exists k|done|].
    by exists k0, x. }
  assert (∀ x, data_at (_data h) (_iim h j) = Some (j, x) →
               data_at (_data h') (_iim h' j) = Some (j, x)) as Hkeep.
  { intros x Hx. destruct (proj2 (Hct (j, x))) as [k Hk].
    - right. exists (_iim h j). split; [|done]. intros Heq.
      rewrite Heq in Hx. by apply Hs in Hx.
    - by rewrite (coherent_at h' k j x). }
  split.
  - apply state_eq_of_index. destruct (Hfr j) as [?|Hj]; [by left|]. right.
    destruct (coherent_occupies h' j Hcoh' Hj) as (_ & _ & ?).
    destruct (coherent_occupies h j Hcoh (Hocc Hj)) as (_ & _ & ?). lia.
  - unfold priorityOf. destruct (decide (0 <= _iim h j)) as [Hj|Hj].
    + destruct (Hmem j Hj) as [x Hx]. by rewrite Hx, (Hkeep x).
    + destruct (Hfr j) as [Heq|Hj'].
      * rewrite Heq. unfold data_at. by rewrite !decide_False by lia.
      * apply Hocc in Hj'.
        destruct (coherent_occupies h j Hcoh Hj') as (_ & _ & ?). lia.
Qed.

Lemma removed_frame h s e h' :
  Inv h → data_at (_data h) s = Some e → removed h s e h' →
  ∀ j, j ≠ e.1 → state h' j = state h j ∧ priorityOf h' j = priorityOf h j.
Proof.
  intros [Hcoh Hmem] He (Hsz & Hcoh' & Hct & Hpost & Hfr) j Hne.
  assert (occupies h' j → occupies h j) as Hocc.
  { intros (k & x & Hx & Hj).
    destruct (proj1 (Hct x)) as (k0 & _ & ?); [by exists k|].
    by exists k0, x. }
  assert (∀ x, data_at (_data h) (_iim h j) = Some (j, x) →
               data_at (_data h') (_iim h' j) = Some (j, x)) as Hkeep.
  { intros x Hx. destruct (proj2 (Hct (j, x))) as [k Hk].
    - exists (_iim h j). split; [|done]. intros Heq.
      rewrite Heq in Hx. by simplify_eq.
    - by rewrite (coherent_at h' k j x). }
  split.
  - apply state_eq_of_index. destruct (Hfr j Hne) as [?|Hj]; [by left|]. right.
    destruct (coherent_occupies h' j Hcoh' Hj) as (_ & _ & ?).
    destruct (coherent_occupies h j Hcoh (Hocc Hj)) as (_ & _ & ?). lia.
  - unfold priorityOf. destruct (decide (0 <= _iim h j)) as [Hj|Hj].
    + destruct (Hmem j Hj) as [x Hx]. by rewrite Hx, (Hkeep x).
    + destruct (Hfr j Hne) as [Heq|Hj'].
      * rewrite Heq. unfold data_at. by rewrite !decide_False by lia.
      * apply Hocc in Hj'.
        destruct (coherent_occupies h j Hcoh Hj') as (_ & _ & ?). lia.
Qed.

Lemma not_stored_of_negative h i :
  coherent h → _iim h i < 0 → i ∉ (_data h).*1.
Proof.
  intros Hcoh Hneg Hin. apply list_elem_of_fmap in Hin as ([i0 q] & -> & He).
  apply elem_of_data_at in He as [k Hk].
  pose proof (coherent_at h k i0 q Hcoh Hk) as Hi.
  apply data_at_range in Hk. simpl in Hneg. lia.
Qed.

Lemma priorityOf_negative h i : _iim h i < 0 → priorityOf h i = None.
Proof.
  intros Hneg. unfold priorityOf, data_at. by rewrite decide_False by lia.
Qed.

(** X1. [top] and [prio] deliver a minimum: on a coherent heap in heap
    order, [operator[]] of the top item is [prio()], and no stored entry,
    hence no item's priority lookup, compares less than [prio()]. *)
Theorem top_is_minimum `{!StrictWeak CMP} h i p :
  coherent h → heap_order h → top h = Some i → prio h = Some p →
  priorityOf h i = Some p ∧
  (∀ e, e ∈ _data h → CMP e.2 p = false) ∧
  (∀ j q, priorityOf h j = Some q → CMP q p = false).
Proof.
  intros Hcoh Hho Htop Hprio. unfold top, prio in *.
  destruct (data_at (_data h) 0) as [[i0 p0]|] eqn:H0; [|done].
  simpl in *. simplify_eq.
  assert (∀ k x, data_at (_data h) k = Some x → CMP x.2 p = false) as Hmin.
  { intros k x Hx. by apply (root_min h (i, p) Hho H0 k x). }
  split_and!.
  - unfold priorityOf. by rewrite (coherent_at h 0 i p), H0.
  - intros e He. apply elem_of_data_at in He as [k Hk]. by apply (Hmin k).
  - intros j q Hq. unfold priorityOf in Hq.
    destruct (data_at (_data h) (_iim h j)) as [x|] eqn:Hx; [|done].
    injection Hq as <-. by apply (Hmin (_iim h j)).
Qed.

(** X2. Exactly-once membership: in every heap reached from the initial
    one without [clear], the items of the array are pairwise distinct, an
    item reads [IN_HEAP] exactly when it is one of them, and then its index
    value is the slot that holds it. *)
Theorem in_heap_iff_stored h :
  reachable h →
  NoDup (_data h).*1 ∧
  (∀ i, state h i = Some IN_HEAP ↔ i ∈ (_data h).*1) ∧
  (∀ i, i ∈ (_data h).*1 →
     ∃ q, data_at (_data h) (_iim h i) = Some (i, q)).
Proof.
  intros Hreach. destruct (reachable_Inv h Hreach) as [Hcoh Hmem].
  assert (∀ i, i ∈ (_data h).*1 → occupies h i) as Hocc.
  { intros i Hi. apply list_elem_of_fmap in Hi as (e & -> & He).
    apply elem_of_data_at in He as [k Hk]. by exists k, e. }
  split_and!.
  - by apply coherent_NoDup.
  - intros i. rewrite state_IN_HEAP. split.
    + intros Hi. destruct (Hmem i Hi) as [q Hq].
      apply (list_elem_of_fmap_2' fst _ (i, q)); [|done].
      apply elem_of_data_at. eauto.
    + intros Hi.
      destruct (coherent_occupies h i Hcoh (Hocc i Hi)) as (_ & _ & ?). lia.
  - intros i Hi.
    destruct (coherent_occupies h i Hcoh (Hocc i Hi)) as (q & ? & _). eauto.
Qed.

Lemma placed_sentinel h s p h' : placed h s p h' → sentinel h → sentinel h'.
Proof.
  intros (Hcoh' & _ & Hfr) Hsen j Hj.
  destruct (Hfr j) as [Heq|Hocc].
  - rewrite Heq in *. by apply Hsen.
  - destruct (coherent_occupies h' j Hcoh' Hocc) as (_ & _ & ?). lia.
Qed.

Lemma removed_sentinel h s e h' :
  removed h s e h' → sentinel h → sentinel h'.
Proof.
  intros (_ & Hcoh' & _ & Hpost & Hfr) Hsen j Hj.
  destruct (decide (j = e.1)) as [->|Hne]; [by right|].
  destruct (Hfr j Hne) as [Heq|Hocc].
  - rewrite Heq in *. by apply Hsen.
  - destruct (coherent_occupies h' j Hcoh' Hocc) as (_ & _ & ?). lia.
Qed.

Lemma iim_set_sentinel h i st :
  sentinel h → st ≠ IN_HEAP → sentinel (iim_set h i (State_to_int st)).
Proof.
  intros Hsen Hst j. simpl. destruct (decide (i = j)) as [<-|Hne].
  - rewrite fn_lookup_insert. intros _. destruct st; [done | by left | by right].
  - rewrite fn_lookup_insert_ne by done. apply Hsen.
Qed.

Lemma exec_sentinel h o h' :
  Inv h → sentinel h → pre h o → exec o h = Some h' → sentinel h'.
Proof.
  intros [Hcoh Hmem] Hsen Hpre.
  destruct o as [i p| |i|i p|i p|i p|i j|i st|]; simpl in *.
  - destruct (push_placed h (i, p) Hcoh Hpre) as (h2 & -> & _ & Hpl).
    intros [= <-]. by apply (placed_sentinel h (size h) (i, p)).
  - destruct (empty_false_top h Hpre) as [e He].
    destruct (pop_removed h e Hcoh He) as (h2 & -> & Hrem).
    intros [= <-]. by apply (removed_sentinel h 0 e).
  - apply state_IN_HEAP in Hpre. destruct (Hmem i Hpre) as [q Hq].
    destruct (erase_removed h i q Hcoh Hq) as (h2 & -> & Hrem).
    intros [= <-]. by apply (removed_sentinel h (_iim h i) (i, q)).
  - destruct (set_placed h i p Hcoh Hmem) as (h2 & -> & Hcase).
    intros [= <-]. case_decide; destruct Hcase as [_ Hpl].
    + by apply (placed_sentinel h (size h) (i, p)).
    + by apply (placed_sentinel h (_iim h i) (i, p)).
  - destruct Hpre as [Hin _]. apply state_IN_HEAP in Hin.
    destruct (Hmem i Hin) as [q Hq].
    destruct (decrease_placed h i q p Hcoh Hq) as (h2 & -> & _ & Hpl).
    intros [= <-]. by apply (placed_sentinel h (_iim h i) (i, p)).
  - destruct Hpre as [Hin _]. apply state_IN_HEAP in Hin.
    destruct (Hmem i Hin) as [q Hq].
    destruct (increase_placed h i q p Hcoh Hq) as (h2 & -> & _ & Hpl).
    intros [= <-]. by apply (placed_sentinel h (_iim h i) (i, p)).
  - destruct Hpre as [Hin Hout]. rewrite state_IN_HEAP in Hin, Hout.
    destruct (Hmem i Hin) as [q Hq].
    rewrite (replace_eq h i j q Hq). intros [= <-] x. simpl.
    destruct (decide (j = x)) as [<-|Hjx].
    + rewrite fn_lookup_insert. lia.
    + rewrite fn_lookup_insert_ne by done.
      destruct (decide (i = x)) as [<-|Hix].
      * rewrite fn_lookup_insert. apply Hsen.
      * rewrite fn_lookup_insert_ne by done. apply Hsen.
  - destruct st; simpl; [by intros [= <-] | ..].
    + case_decide as Hin.
      * apply state_IN_HEAP in Hin. destruct (Hmem i Hin) as [q Hq].
        destruct (erase_removed h i q Hcoh Hq) as (h2 & -> & Hrem).
        simpl. intros [= <-]. apply (iim_set_sentinel h2 i PRE_HEAP); [|done].
        by apply (removed_sentinel h (_iim h i) (i, q)).
      * simpl. intros [= <-]. by apply (iim_set_sentinel h i PRE_HEAP).
    + case_decide as Hin.
      * apply state_IN_HEAP in Hin. destruct (Hmem i Hin) as [q Hq].
        destruct (erase_removed h i q Hcoh Hq) as (h2 & -> & Hrem).
        simpl. intros [= <-]. apply (iim_set_sentinel h2 i POST_HEAP); [|done].
        by apply (removed_sentinel h (_iim h i) (i, q)).
      * simpl. intros [= <-]. by apply (iim_set_sentinel h i POST_HEAP).
  - by intros [= <-].
Qed.

(** X3. What the map never holds: in every heap reached from the initial
    one without [clear], each index value is [PRE_HEAP], [POST_HEAP] or a
    slot number below [size()]; so [state] always yields one of the three
    enumerators. *)
Theorem index_values_are_states h :
  reachable h →
  ∀ i, (_iim h i = State_to_int PRE_HEAP ∨
        _iim h i = State_to_int POST_HEAP ∨
        0 <= _iim h i < size h) ∧
       ∃ st, state h i = Some st.
Proof.
  intros Hreach.
  assert (sentinel h) as Hsen.
  { induction Hreach as [|h o h' Hreach IH Hnc Hpre Hex].
    - intros j _. by left.
    - by apply (exec_sentinel h o h'); [apply reachable_Inv|..]. }
  destruct (reachable_Inv h Hreach) as [Hcoh Hmem]. intros i.
  destruct (decide (0 <= _iim h i)) as [Hi|Hi].
  - destruct (Hmem i Hi) as [q Hq]. apply data_at_range in Hq.
    split; [right; right; unfold size; lia|].
    exists IN_HEAP. by apply state_IN_HEAP.
  - destruct (Hsen i ltac:(lia)) as [Hv|Hv]; rewrite Hv.
    + split; [by left|]. exists PRE_HEAP. by apply state_of_index.
    + split; [by right; left|]. exists POST_HEAP. by apply state_of_index.
Qed.

(** X4. Frame of [push]: pushing an item with a negative index value
    returns, adds exactly the pushed pair to the stored entries, makes
    [operator[]] of the item the pushed priority, and leaves every other
    item's state and priority lookup as they were. *)
Theorem push_adds_entry h i p :
  Inv h → _iim h i < 0 →
  ∃ h', push h (i, p) = Some h' ∧ size h' = size h + 1 ∧
    _data h' ≡ₚ (i, p) :: _data h ∧
    state h' i = Some IN_HEAP ∧ priorityOf h' i = Some p ∧
    ∀ j, j ≠ i → state h' j = state h j ∧ priorityOf h' j = priorityOf h j.
Proof.
  intros HInv Hneg. pose proof HInv as [Hcoh Hmem].
  destruct (push_placed h (i, p) Hcoh Hneg) as (h' & Hpush & Hsz & Hpl).
  exists h'. split; [done|]. split; [done|].
  split; [by apply push_Permutation|].
  apply (placed_frame_any h (size h)); [done..|].
  intros e He. apply data_at_range in He. unfold size in He. lia.
Qed.

(** X5. Frame of [pop]: on a non-empty heap satisfying invariants 3 and 4
    it returns, removes exactly the root entry from the stored entries,
    leaves the former top item without a priority lookup, and leaves every
    other item's state and priority lookup as they were. *)
Theorem pop_removes_top h i p :
  Inv h → top h = Some i → prio h = Some p →
  ∃ h', pop h = Some h' ∧ size h' = size h - 1 ∧
    _data h ≡ₚ (i, p) :: _data h' ∧
    (i ∉ (_data h').*1) ∧ priorityOf h' i = None ∧
    ∀ j, j ≠ i → state h' j = state h j ∧ priorityOf h' j = priorityOf h j.
Proof.
  intros HInv Htop Hprio. pose proof HInv as [Hcoh Hmem].
  unfold top, prio in *.
  destruct (data_at (_data h) 0) as [[i0 p0]|] eqn:H0; [|done].
  simpl in *. simplify_eq.
  destruct (pop_removed h (i, p) Hcoh H0) as (h' & Hpop & Hrem).
  pose proof (removed_Permutation h 0 (i, p) h' Hcoh H0 Hrem) as Hperm.
  pose proof Hrem as (Hsz & Hcoh' & _ & Hpost & _). simpl in Hpost.
  exists h'. split_and!; try done.
  - apply not_stored_of_negative; [done|]. rewrite Hpost.
    by unfold State_to_int.
  - apply priorityOf_negative. rewrite Hpost. by unfold State_to_int.
  - by apply (removed_frame h 0 (i, p)).
Qed.

(** X6. Frame of [erase]: for an item in the heap it returns, removes
    exactly that item's entry from the stored entries, leaves the item
    without a priority lookup, and leaves every other item's state and
    priority lookup as they were. *)
Theorem erase_removes_item h i q :
  Inv h → state h i = Some IN_HEAP → priorityOf h i = Some q →
  ∃ h', erase h i = Some h' ∧ size h' = size h - 1 ∧
    _data h ≡ₚ (i, q) :: _data h' ∧
    (i ∉ (_data h').*1) ∧ priorityOf h' i = None ∧
    ∀ j, j ≠ i → state h' j = state h j ∧ priorityOf h' j = priorityOf h j.
Proof.
  intros HInv Hin Hprio. pose proof HInv as [Hcoh Hmem].
  apply state_IN_HEAP in Hin. destruct (Hmem i Hin) as [q' Hq].
  unfold priorityOf in Hprio. rewrite Hq in Hprio. simpl in Hprio.
  simplify_eq.
  destruct (erase_removed h i q Hcoh Hq) as (h' & Her & Hrem).
  pose proof (removed_Permutation h _ (i, q) h' Hcoh Hq Hrem) as Hperm.
  pose proof Hrem as (Hsz & Hcoh' & _ & Hpost & _). simpl in Hpost.
  exists h'. split_and!; try done.
  - apply not_stored_of_negative; [done|]. rewrite Hpost.
    by unfold State_to_int.
  - apply priorityOf_negative. rewrite Hpost. by unfold State_to_int.
  - by apply (removed_frame h (_iim h i) (i, q)).
Qed.

(** X7. What [set] guarantees whatever the item's state was: on a heap
    satisfying invariants 3 and 4 it returns, the item then reads
    [IN_HEAP] with the given priority, the heap has grown by one exactly
    when the index value was negative, every other item's state and
    priority lookup are as they were, and invariants 3 and 4 hold. *)
Theorem set_stores h i p :
  Inv h →
  ∃ h', set h i p = Some h' ∧
    state h' i = Some IN_HEAP ∧ priorityOf h' i = Some p ∧
    size h' = (if decide (_iim h i < 0) then size h + 1 else size h) ∧
    (∀ j, j ≠ i → state h' j = state h j ∧ priorityOf h' j = priorityOf h j) ∧
    Inv h'.
Proof.
  intros HInv. pose proof HInv as [Hcoh Hmem].
  destruct (set_placed h i p Hcoh Hmem) as (h' & Hset & Hcase).
  destruct (exec_Inv h (SetPrio i p) HInv I) as (h2 & Hex & HInv'); [done|].
  simpl in Hex. simplify_eq.
  exists h'. split; [done|]. case_decide as Hneg.
  - destruct Hcase as [Hsz Hpl].
    destruct (placed_frame_any h (size h) i p h' HInv Hpl) as (? & ? & ?).
    { intros e He. apply data_at_range in He. unfold size in He. lia. }
    done.
  - destruct Hcase as [Hsz Hpl].
    destruct (placed_frame_any h (_iim h i) i p h' HInv Hpl) as (? & ? & ?).
    { intros e He. apply (membership_slot h i e); [done.. | lia | done]. }
    done.
Qed.

(** X8. [bubble_up] only rises.  Started on any slot of the array it
    returns a slot [k] at or above the start, with [p] stored in slot [k]
    and [p]'s item indexed at [k]; the array keeps its length and no slot
    past the start is written.  So [decrease] never moves its item to a
    later slot, whatever the new priority. *)
Theorem bubble_up_rises h hole p :
  0 <= hole < size h →
  (∃ h' k, bubble_up h hole p = Some (h', k) ∧
     0 <= k <= hole ∧ size h' = size h ∧
     data_at (_data h') k = Some p ∧ _iim h' p.1 = k ∧
     ∀ j, hole < j → data_at (_data h') j = data_at (_data h) j) ∧
  (∀ i q, _iim h i = hole →
     ∃ h', decrease h i q = Some h' ∧
       _iim h' i <= _iim h i ∧ priorityOf h' i = Some q ∧
       ∀ j, _iim h i < j → data_at (_data h') j = data_at (_data h) j).
Proof.
  intros Hr.
  assert (∀ p, ∃ h' k, bubble_up h hole p = Some (h', k) ∧
     0 <= k <= hole ∧ size h' = size h ∧
     data_at (_data h') k = Some p ∧ _iim h' p.1 = k ∧
     ∀ j, hole < j → data_at (_data h') j = data_at (_data h) j) as Hup.
  { clear p. intros p.
    apply (bubble_up_loop_rule p
      (λ h1 hole1, 0 <= hole1 <= hole ∧ size h1 = size h ∧
         ∀ j, hole < j → data_at (_data h1) j = data_at (_data h) j)).
    - intros h1 hole1 (? & ? & _). lia.
    - intros h1 hole1 x (Hh1 & Hsz & Hsame) Hpos _ _.
      pose proof (parent_spec hole1 Hpos) as [? ?].
      rewrite size_move_to. split_and!; try (done || lia).
      intros j Hj. rewrite data_at_move_to, decide_False by lia.
      by apply Hsame.
    - intros h1 hole1 (Hh1 & Hsz & Hsame) _.
      rewrite size_move_to. split_and!; try (done || lia).
      + by rewrite data_at_move_to, decide_True by lia.
      + simpl. apply fn_lookup_insert.
      + intros j Hj. rewrite data_at_move_to, decide_False by lia.
        by apply Hsame.
    - split_and!; (done || lia).
    - lia. }
  split; [apply Hup|]. intros i q Hi. unfold decrease. rewrite Hi.
  destruct (Hup (i, q)) as (h' & k & -> & Hk & _ & Hp & Hiim & Hsame).
  simpl in *. exists h'. split_and!; try done; [lia|].
  unfold priorityOf. by rewrite Hiim, Hp.
Qed.

(** X9. [bubble_down] only sinks.  Started on a slot below [length] it
    returns a slot [k] at or below the start and still below [length], with
    [p] stored in slot [k] and [p]'s item indexed at [k]; the array keeps
    its length, and no slot before the start or from [length] on is
    written.  So [increase] never moves its item to an earlier slot. *)
Theorem bubble_down_sinks h hole p len :
  0 <= hole < len → len <= size h →
  (∃ h' k, bubble_down h hole p len = Some (h', k) ∧
     hole <= k < len ∧ size h' = size h ∧
     data_at (_data h') k = Some p ∧ _iim h' p.1 = k ∧
     ∀ j, j < hole ∨ len <= j →
          data_at (_data h') j = data_at (_data h) j) ∧
  (∀ i q, _iim h i = hole → len = size h →
     ∃ h', increase h i q = Some h' ∧
       _iim h i <= _iim h' i ∧ priorityOf h' i = Some q ∧
       ∀ j, j < _iim h i → data_at (_data h') j = data_at (_data h) j).
Proof.
  intros Hr Hlen.
  assert (∀ p, ∃ h' k, bubble_down h hole p len = Some (h', k) ∧
     hole <= k < len ∧ size h' = size h ∧
     data_at (_data h') k = Some p ∧ _iim h' p.1 = k ∧
     ∀ j, j < hole ∨ len <= j →
          data_at (_data h') j = data_at (_data h) j) as Hdown.
  { clear p. intros p.
    apply (bubble_down_loop_rule p len
      (λ h1 hole1, hole <= hole1 < len ∧ size h1 = size h ∧
         ∀ j, j < hole ∨ len <= j →
              data_at (_data h1) j = data_at (_data h) j)).
    - intros h1 hole1 (? & ? & _). lia.
    - intros h1 hole1 c e (Hh1 & Hsz & Hsame) Hch _ _.
      apply chosen_child in Hch as [? ?].
      rewrite size_move_to. split_and!; try (done || lia).
      intros j Hj. rewrite data_at_move_to, decide_False by lia.
      by apply Hsame.
    - intros h1 hole1 (Hh1 & Hsz & Hsame) _.
      rewrite size_move_to. split_and!; try (done || lia).
      + by rewrite data_at_move_to, decide_True by lia.
      + simpl. apply fn_lookup_insert.
      + intros j Hj. rewrite data_at_move_to, decide_False by lia.
        by apply Hsame.
    - split_and!; (done || lia).
    - lia. }
  split; [apply Hdown|]. intros i q Hi ->. unfold increase. rewrite Hi.
  destruct (Hdown (i, q)) as (h' & k & -> & Hk & _ & Hp & Hiim & Hsame).
  simpl in *. exists h'. split_and!; try done; [lia | |].
  - unfold priorityOf. by rewrite Hiim, Hp.
  - intros j Hj. apply Hsame. by left.
Qed.

(** X10. [replace] is its own inverse: when slot [_iim[i]] holds [i],
    [replace(i, j)] followed by [replace(j, i)] both return and restore the
    array and every index value, whatever [j]'s index value was. *)
Theorem replace_involutive h i j q :
  data_at (_data h) (_iim h i) = Some (i, q) →
  ∃ h1 h2, replace h i j = Some h1 ∧ replace h1 j i = Some h2 ∧
    _data h2 = _data h ∧ ∀ x, _iim h2 x = _iim h x.
Proof.
  intros Hq. pose proof (data_at_range _ _ _ Hq) as Hr.
  pose proof (replace_eq h i j q Hq) as H1.
  set (h1 := mkBinHeap (<[Z.to_nat (_iim h i) := (j, q)]> (_data h))
                       (<[j := _iim h i]> (<[i := _iim h j]> (_iim h)))) in *.
  assert (_iim h1 j = _iim h i) as Hj by (simpl; apply fn_lookup_insert).
  assert (data_at (_data h1) (_iim h1 j) = Some (j, q)) as Hq1.
  { rewrite Hj. simpl. by rewrite data_at_insert, decide_True. }
  pose proof (replace_eq h1 j i q Hq1) as H2.
  eexists _, _. split; [exact H1|]. split; [exact H2|]. simpl. split.
  - rewrite fn_lookup_insert, list_insert_insert_eq.
    apply list_insert_id. unfold data_at in Hq.
    by rewrite decide_True in Hq by lia.
  - intros x. rewrite !fn_lookup_insert.
    destruct (decide (i = x)) as [<-|Hix]; [by rewrite fn_lookup_insert|].
    rewrite (fn_lookup_insert_ne _ i x) by done.
    destruct (decide (j = x)) as [<-|Hjx].
    + rewrite fn_lookup_insert.
      rewrite (fn_lookup_insert_ne _ j i) by done.
      by rewrite fn_lookup_insert.
    + by rewrite !fn_lookup_insert_ne.
Qed.

(** X11. After [clear()] the items that were in the heap are stale: they
    still read [IN_HEAP], and [operator[]], [erase], [set], [decrease],
    [increase] and the state setter with [PRE_HEAP] or [POST_HEAP] on such an
    item all index the empty array out of range.  The map has to be reset by
    other means than the state setter. *)
Theorem clear_leaves_stale_items h i p :
  0 <= _iim h i →
  state (clear h) i = Some IN_HEAP ∧
  priorityOf (clear h) i = None ∧
  erase (clear h) i = None ∧
  set (clear h) i p = None ∧
  decrease (clear h) i p = None ∧
  increase (clear h) i p = None ∧
  ∀ st, st ≠ IN_HEAP → set_state (clear h) i st = None.
Proof.
  intros Hi.
  assert (∀ k, data_at (_data (clear h)) k = None) as Hnone.
  { intros k. unfold data_at. simpl. by case_decide. }
  assert (state (clear h) i = Some IN_HEAP) as Hst by by apply state_IN_HEAP.
  assert (erase (clear h) i = None) as Her.
  { unfold erase. by rewrite Hnone. }
  assert (∀ x k, move (clear h) x k = None) as Hmove.
  { intros x k. unfold move, size. simpl. case_decide; [lia | done]. }
  split_and!; try done.
  - unfold priorityOf. by rewrite Hnone.
  - unfold set. simpl. rewrite decide_False by lia. by rewrite Hnone.
  - unfold decrease, bubble_up. simpl.
    case_decide; [by rewrite Hnone | by rewrite Hmove].
  - unfold increase, bubble_down. simpl.
    rewrite !decide_False by (unfold second_child, size; simpl; lia).
    by rewrite Hmove.
  - intros st Hne. destruct st; [done | ..]; simpl;
      rewrite decide_True by done; by rewrite Her.
Qed.

Lemma set_state_step h i st :
  Inv h → st ≠ IN_HEAP →
  ∃ h', set_state h i st = Some h' ∧ Inv h' ∧
    _iim h' i = State_to_int st ∧
    (∀ j, j ≠ i → state h' j = state h j ∧ priorityOf h' j = priorityOf h j) ∧
    (∀ e, e ∈ _data h' ↔ e ∈ _data h ∧ e.1 ≠ i).
Proof.
  intros HInv Hst. pose proof HInv as [Hcoh Hmem].
  destruct (set_state_total h i st HInv) as [h' Hset].
  pose proof (set_state_Inv h i st h' HInv Hset) as HInv'.
  exists h'. split; [done|]. split; [done|].
  assert (((if decide (state h i = Some IN_HEAP) then erase h i else Some h)
           ≫= λ h1, Some (iim_set h1 i (State_to_int st))) = Some h') as Hgo
    by by destruct st.
  clear Hset. case_decide as Hin.
  - apply state_IN_HEAP in Hin. destruct (Hmem i Hin) as [q Hq].
    destruct (erase_removed h i q Hcoh Hq) as (h1 & Her & Hrem).
    rewrite Her in Hgo. simpl in Hgo. injection Hgo as <-.
    pose proof (removed_frame h _ (i, q) h1 HInv Hq Hrem) as Hfr.
    destruct Hrem as (_ & _ & Hct & _). split_and!.
    + simpl. apply fn_lookup_insert.
    + intros j Hne. destruct (Hfr j Hne) as [<- <-].
      unfold state, priorityOf. simpl. by rewrite fn_lookup_insert_ne.
    + intros e. simpl. rewrite !elem_of_data_at, Hct. split.
      * intros (k & Hk & He). split; [by exists k|]. intros Hei.
        apply Hk. by apply (coherent_inj h _ _ e (i, q)).
      * intros [[k He] Hei]. exists k. split; [|done]. intros ->.
        by simplify_eq.
  - simpl in Hgo. injection Hgo as <-. rewrite state_IN_HEAP in Hin.
    split_and!.
    + simpl. apply fn_lookup_insert.
    + intros j Hne. unfold state, priorityOf. simpl.
      by rewrite fn_lookup_insert_ne.
    + intros e. simpl. split; [|by intros [? _]]. intros He. split; [done|].
      intros <-. apply (not_stored_of_negative h e.1 Hcoh); [lia|].
      by apply list_elem_of_fmap_2.
Qed.

(** X12. Manual clearing with the state setter: calling [state(i, st)], with
    [st] one of [PRE_HEAP] and [POST_HEAP], for each item of a list always
    returns on a heap satisfying invariants 3 and 4 and keeps them (and heap
    order); every listed item then reads [st], every other item keeps its
    state and priority lookup, and the stored entries are those of the
    items not listed.  Listing every stored item leaves the array empty. *)
Theorem reset_all_clears `{!StrictWeak CMP} l st h :
  Inv h → st ≠ IN_HEAP →
  ∃ h', reset_all l st h = Some h' ∧ Inv h' ∧
    (heap_order h → heap_order h') ∧
    (∀ i, i ∈ l → state h' i = Some st) ∧
    (∀ j, j ∉ l → state h' j = state h j ∧ priorityOf h' j = priorityOf h j) ∧
    (∀ e, e ∈ _data h' ↔ e ∈ _data h ∧ e.1 ∉ l) ∧
    ((∀ e, e ∈ _data h → e.1 ∈ l) → _data h' = []).
Proof.
  intros HInv Hst.
  assert (∃ h', reset_all l st h = Some h' ∧ Inv h' ∧
    (heap_order h → heap_order h') ∧
    (∀ i, i ∈ l → state h' i = Some st) ∧
    (∀ j, j ∉ l → state h' j = state h j ∧ priorityOf h' j = priorityOf h j) ∧
    (∀ e, e ∈ _data h' ↔ e ∈ _data h ∧ e.1 ∉ l))
    as (h' & Hrun & HInv' & Hho & Hin & Hout & Hct).
  { revert h HInv. induction l as [|i l IH]; intros h HInv; simpl.
    - exists h. split_and!; try done.
      + intros i Hi. by apply elem_of_nil in Hi.
      + intros e. split; [|by intros [? _]]. intros He. split; [done|].
        apply not_elem_of_nil.
    - destruct (set_state_step h i st HInv Hst)
        as (h1 & Hset & HInv1 & Hi1 & Hfr1 & Hct1).
      rewrite Hset. simpl.
      destruct (IH h1 HInv1) as (h' & -> & HInv' & Hho & Hin & Hout & Hct).
      exists h'. split_and!; try done.
      + intros Hord. apply Hho. by apply (set_state_order h i st).
      + intros j Hj. destruct (decide (j ∈ l)) as [?|Hnl]; [by apply Hin|].
        apply elem_of_cons in Hj as [->|?]; [|done].
        destruct (Hout i Hnl) as [-> _]. by apply state_of_index.
      + intros j Hj. apply not_elem_of_cons in Hj as [Hne Hnl].
        destruct (Hout j Hnl) as [-> ->]. by apply Hfr1.
      + intros e. rewrite Hct, Hct1, not_elem_of_cons.
        split; [intros [[? ?] ?] | intros [? [? ?]]]; by split_and!. }
  exists h'. split_and!; try done.
  intros Hall. destruct (_data h') as [|e d] eqn:Hd; [done|].
  destruct (proj1 (Hct e)) as [He Hnl]; [by left|].
  by destruct Hnl; apply Hall.
Qed.

Lemma drain_marks n h out h' :
  Inv h → size h = Z.of_nat n → drain n h = Some (out, h') →
  (∀ e, e ∈ _data h → _iim h' e.1 = State_to_int POST_HEAP) ∧
  (∀ j, j ∉ (_data h).*1 → _iim h' j = _iim h j).
Proof.
  revert h out. induction n as [|n IH]; intros h out HInv Hsz; simpl.
  - intros [= <- <-]. unfold size in Hsz.
    destruct (_data h); [|simpl in Hsz; lia].
    split; [|done]. intros e He. by apply elem_of_nil in He.
  - pose proof HInv as [Hcoh Hmem].
    destruct (data_at_is_Some (_data h) 0) as [e He]; [unfold size in *; lia|].
    unfold top, prio. rewrite He. simpl.
    destruct (pop_removed h e Hcoh He) as (h1 & Hpop & Hrem).
    rewrite Hpop. simpl.
    destruct (drain n h1) as [[out1 h2]|] eqn:Hdr; [|done]. simpl.
    intros [= <- <-].
    pose proof (removed_Permutation h 0 e h1 Hcoh He Hrem) as Hperm.
    pose proof (removed_membership h 0 e h1 Hcoh He Hmem Hrem) as Hmem1.
    pose proof Hrem as (Hsz1 & Hcoh1 & _ & Hpost & Hfr).
    destruct (IH h1 out1) as [Hin1 Hout1]; [done | lia | done |].
    assert (e.1 ∉ (_data h1).*1) as Hgone.
    { apply not_stored_of_negative; [done|]. rewrite Hpost.
      by unfold State_to_int. }
    split.
    + intros x Hx. rewrite Hperm in Hx.
      apply elem_of_cons in Hx as [->|Hx]; [|by apply Hin1].
      by rewrite (Hout1 e.1 Hgone).
    + intros j Hj.
      assert (j ∉ (_data h1).*1) as Hj1.
      { intros Hj1. apply Hj. rewrite Hperm, fmap_cons. by right. }
      assert (j ≠ e.1) as Hne.
      { intros ->. apply Hj. rewrite Hperm, fmap_cons. by left. }
      rewrite (Hout1 j Hj1). destruct (Hfr j Hne) as [?|Hocc]; [done|].
      destruct Hj1. destruct Hocc as (k & x & Hx & <-).
      apply list_elem_of_fmap_2, elem_of_data_at. eauto.
Qed.

(** X13. Draining any heap sorts it: from a heap satisfying invariants 2, 3
    and 4, [size()] rounds of [top]/[prio]/[pop] return, deliver a
    permutation of the stored entries with priorities non-decreasing, leave
    the heap empty, every delivered item [POST_HEAP], and the index value of
    every other item untouched. *)
Theorem drain_sorts_any_heap `{!StrictWeak CMP} h :
  Inv h → heap_order h →
  ∃ out h', drain (length (_data h)) h = Some (out, h') ∧
    out ≡ₚ _data h ∧ StronglySorted prio_le out.*2 ∧ empty h' = true ∧
    (∀ e, e ∈ out → state h' e.1 = Some POST_HEAP) ∧
    (∀ j, j ∉ out.*1 → _iim h' j = _iim h j).
Proof.
  intros HInv Hho. pose proof HInv as [Hcoh _].
  destruct (drain_spec (length (_data h)) h)
    as (out & h' & Hdr & Hperm & Hsorted & Hemp); try done.
  destruct (drain_marks _ h out h' HInv eq_refl Hdr) as [Hin Hout].
  exists out, h'. split_and!; try done.
  - intros e He. apply state_of_index; [|done]. apply Hin.
    by rewrite <- Hperm.
  - intros j Hj. apply Hout. by rewrite <- Hperm.
Qed.

(** X14. Equivalent priorities do not move anything: on a heap satisfying
    invariants 2, 3 and 4, updating an item in the heap to a priority that
    neither precedes nor follows its stored one leaves every entry in its
    slot and every index value as it was, and only rewrites the item's
    priority; [set], [decrease] and [increase] all do exactly that. *)
Theorem equivalent_priority_keeps_slots `{!StrictWeak CMP} h i q p :
  Inv h → heap_order h →
  data_at (_data h) (_iim h i) = Some (i, q) →
  CMP p q = false → CMP q p = false →
  ∃ h', set h i p = Some h' ∧ decrease h i p = Some h' ∧
    increase h i p = Some h' ∧
    _data h' = <[Z.to_nat (_iim h i) := (i, p)]> (_data h) ∧
    ∀ x, _iim h' x = _iim h x.
Proof.
  intros [Hcoh Hmem] Hho Hq Hpq Hqp.
  pose proof (data_at_range _ _ _ Hq) as Hr.
  assert (bubble_up h (_iim h i) (i, p)
          = Some (move_to h (i, p) (_iim h i), _iim h i)) as Hup.
  { apply bubble_up_stay; [done|]. intros Hpos.
    pose proof (parent_spec (_iim h i) Hpos) as [? ?].
    destruct (data_at_is_Some (_data h) (parent (_iim h i))) as [x Hx]; [lia|].
    exists x. split; [done|]. apply less_negtrans with (i, q); [done|].
    apply (Hho (_iim h i)); [unfold size; lia | done..]. }
  assert (bubble_down h (_iim h i) (i, p) (size h)
          = Some (move_to h (i, p) (_iim h i), _iim h i)) as Hdown.
  { apply bubble_down_stay; try done.
    intros c e Hch He. pose proof (chosen_child _ _ _ _ Hch) as [? ?].
    apply less_negtrans with (i, q); [|done].
    apply (Hho c); [unfold size in *; lia | done |].
    by rewrite (parent_unique c (_iim h i)) by lia. }
  exists (move_to h (i, p) (_iim h i)). split_and!.
  - unfold set. rewrite decide_False by lia. rewrite Hq. simpl.
    by rewrite Hpq, Hdown.
  - unfold decrease. by rewrite Hup.
  - unfold increase. by rewrite Hdown.
  - done.
  - intros x. simpl. destruct (decide (i = x)) as [<-|Hne].
    + apply fn_lookup_insert.
    + by apply fn_lookup_insert_ne.
Qed.


(** ** Two code paths that agree *)

Lemma data_at_ext (d1 d2 : list Pair) :
  (∀ k, data_at d1 k = data_at d2 k) → d1 = d2.
Proof.
  intros Hext. apply list_eq. intros n. specialize (Hext (Z.of_nat n)).
  unfold data_at in Hext. rewrite !decide_True in Hext by lia.
  by rewrite Nat2Z.id in Hext.
Qed.

(** [bubble_down] reads neither the hole nor the index value of [p]'s item:
    two states that differ at most there give the same result. *)
Lemma bubble_down_loop_agree fuel h1 h2 hole p len :
  0 <= hole → size h1 = size h2 →
  (∀ k, k ≠ hole → data_at (_data h1) k = data_at (_data h2) k) →
  (∀ x, x ≠ p.1 → _iim h1 x = _iim h2 x) →
  match bubble_down_loop fuel h1 hole p len,
        bubble_down_loop fuel h2 hole p len with
  | Some (r1, k1), Some (r2, k2) =>
      k1 = k2 ∧ (∀ k, data_at (_data r1) k = data_at (_data r2) k) ∧
      ∀ x, _iim r1 x = _iim r2 x
  | None, None => True
  | _, _ => False
  end.
Proof.
  revert h1 h2 hole.
  induction fuel as [|fuel IH]; intros h1 h2 hole Hh Hsz Hdat Hiim; [done|].
  assert (∀ e, match move h1 e hole, move h2 e hole with
               | Some r1, Some r2 =>
                   size r1 = size r2 ∧
                   (∀ k, data_at (_data r1) k = data_at (_data r2) k) ∧
                   ∀ x, x ≠ p.1 ∨ e.1 = p.1 → _iim r1 x = _iim r2 x
               | None, None => True
               | _, _ => False
               end) as Hmove.
  { intros e. unfold move. rewrite Hsz. case_decide as Hr; [|done].
    rewrite !size_move_to. split; [done|]. split.
    - intros k. rewrite !data_at_move_to by lia.
      case_decide; [done | by apply Hdat].
    - intros x Hx. simpl. destruct (decide (e.1 = x)) as [<-|Hne].
      + by rewrite !fn_lookup_insert.
      + rewrite !fn_lookup_insert_ne by done. apply Hiim.
        destruct Hx as [?|Heq]; [done | congruence]. }
  assert (match (h ← move h1 p hole; Some (h, hole)),
                (h ← move h2 p hole; Some (h, hole)) with
          | Some (r1, k1), Some (r2, k2) =>
              k1 = k2 ∧ (∀ k, data_at (_data r1) k = data_at (_data r2) k) ∧
              ∀ x, _iim r1 x = _iim r2 x
          | None, None => True
          | _, _ => False
          end) as Hstop.
  { specialize (Hmove p).
    destruct (move h1 p hole), (move h2 p hole); try done. simpl.
    destruct Hmove as (_ & ? & Hi). split_and!; try done.
    intros x. apply Hi. by right. }
  simpl. unfold second_child.
  rewrite <- !Hdat by lia. case_decide as Hfull.
  - destruct (data_at (_data h1) (2 * hole + 2 - 1)) as [l|]; [|done].
    destruct (data_at (_data h1) (2 * hole + 2)) as [r|]; [|done]. simpl.
    assert (pick_child l r (2 * hole + 2) ≠ hole) as Hpick.
    { unfold pick_child. destruct (less l r); lia. }
    rewrite <- (Hdat _ Hpick).
    destruct (data_at (_data h1) (pick_child l r (2 * hole + 2))) as [c|];
      [|done]. simpl.
    destruct (less c p); simpl; [|done].
    specialize (Hmove c).
    destruct (move h1 c hole) as [r1|], (move h2 c hole) as [r2|]; try done.
    simpl. destruct Hmove as (Hsz' & Hdat' & Hiim').
    apply IH; [unfold pick_child; destruct (less l r); lia | done | |].
    + intros k _. apply Hdat'.
    + intros x Hx. apply Hiim'. by left.
  - case_decide as Hone; [|done].
    destruct (data_at (_data h1) (2 * hole + 2 - 1)) as [c|]; [|done]. simpl.
    destruct (less c p); [|done].
    specialize (Hmove c).
    destruct (move h1 c hole) as [r1|], (move h2 c hole) as [r2|]; try done.
    simpl. destruct Hmove as (Hsz' & Hdat' & Hiim').
    unfold move. rewrite Hsz'. case_decide as Hr; [|done]. simpl.
    split; [done|]. split.
    + intros k. rewrite !data_at_insert by (unfold size in *; lia).
      case_decide; [done|]. apply Hdat'.
    + intros x. destruct (decide (p.1 = x)) as [<-|Hne].
      * by rewrite !fn_lookup_insert.
      * rewrite !fn_lookup_insert_ne by done. apply Hiim'. by left.
Qed.

Local Arguments move_to : simpl never.

(** X16. [pop()] does what [erase(top())] does: on a coherent, non-empty
    heap both return, and they leave the same array and the same index
    value for every item, although [erase] first runs [bubble_up] on the
    root and writes the last entry there. *)
Theorem pop_is_erase_top h i :
  coherent h → top h = Some i →
  ∃ h1 h2, pop h = Some h1 ∧ erase h i = Some h2 ∧
    _data h1 = _data h2 ∧ ∀ x, _iim h1 x = _iim h2 x.
Proof.
  intros Hcoh Htop. unfold top in Htop.
  destruct (data_at (_data h) 0) as [[i0 p0]|] eqn:H0; [|done].
  simpl in Htop. simplify_eq.
  pose proof (coherent_at h 0 i p0 Hcoh H0) as Hi.
  pose proof (data_at_range _ _ _ H0) as Hr.
  destruct (pop_removed h (i, p0) Hcoh H0) as (h1 & Hpop & _).
  exists h1. revert Hpop. unfold pop, erase. rewrite Hi, H0. simpl.
  destruct (decide (size h - 1 > 0)) as [Hn|Hn].
  - rewrite decide_True by lia.
    destruct (data_at (_data h) (size h - 1)) as [last|] eqn:Hlast; [|done].
    simpl.
    rewrite bubble_up_stay by (rewrite ?size_iim_set; unfold size; lia).
    simpl. rewrite ?decide_True by done.
    rewrite data_at_insert by lia.
    rewrite decide_False by lia. simpl. rewrite Hlast. simpl.
    pose proof (bubble_down_loop_agree (S (Z.to_nat (size h - 1)))
      (iim_set h i (State_to_int POST_HEAP))
      (move_to (iim_set h i (State_to_int POST_HEAP)) last 0)
      0 last (size h - 1)) as Hagree.
    unfold bubble_down.
    destruct (bubble_down_loop _ (iim_set h i (State_to_int POST_HEAP)) 0 last
                (size h - 1)) as [[r1 k1]|]; [|done].
    destruct (bubble_down_loop _
                (move_to (iim_set h i (State_to_int POST_HEAP)) last 0) 0 last
                (size h - 1)) as [[r2 k2]|].
    + destruct Hagree as (_ & Hd & Hm); try done.
      { by rewrite size_move_to. }
      { intros k Hk. rewrite data_at_move_to
          by (rewrite size_iim_set; unfold size; lia).
        by rewrite decide_False. }
      { intros x Hx. simpl. by rewrite (fn_lookup_insert_ne _ last.1 x). }
      simpl. unfold pop_back. rewrite <- (data_at_ext _ _ Hd).
      destruct (_data r1); [done|]. intros [= <-].
      eexists. split_and!; [done | done | done | apply Hm].
    + exfalso. apply Hagree; try done.
      * by rewrite size_move_to.
      * intros k Hk. rewrite data_at_move_to
          by (rewrite size_iim_set; unfold size; lia).
        by rewrite decide_False.
      * intros x Hx. simpl. by rewrite (fn_lookup_insert_ne _ last.1 x).
  - rewrite decide_False by lia. intros ->. by exists h1.
Qed.

(** X17. [push] undone by [erase]: pushing an item with a negative index
    value and erasing it again returns both times, leaves the stored
    entries a permutation of what they were, the item [POST_HEAP], every
    other item's state and priority lookup unchanged, and invariants 3 and
    4 in force. *)
Theorem push_then_erase h i p :
  Inv h → _iim h i < 0 →
  ∃ h1 h2, push h (i, p) = Some h1 ∧ erase h1 i = Some h2 ∧
    _data h2 ≡ₚ _data h ∧ size h2 = size h ∧
    state h2 i = Some POST_HEAP ∧
    (∀ j, j ≠ i → state h2 j = state h j ∧ priorityOf h2 j = priorityOf h j) ∧
    Inv h2.
Proof.
  intros HInv Hneg. pose proof HInv as [Hcoh Hmem].
  destruct (push_placed h (i, p) Hcoh Hneg) as (h1 & Hpush & Hsz1 & Hpl).
  destruct (exec_Inv h (Push i p) HInv Hneg) as (h1' & Hex & HInv1); [done|].
  simpl in Hex. simplify_eq. pose proof HInv1 as [Hcoh1 Hmem1].
  destruct (placed_frame_any h (size h) i p h1 HInv Hpl) as (Hst1 & Hp1 & Hfr1).
  { intros e He. apply data_at_range in He. unfold size in He. lia. }
  apply state_IN_HEAP in Hst1. destruct (Hmem1 i Hst1) as [q Hq].
  assert (q = p) as ->.
  { unfold priorityOf in Hp1. rewrite Hq in Hp1. simpl in Hp1. congruence. }
  destruct (erase_removed h1 i p Hcoh1 Hq) as (h2 & Her & Hrem).
  pose proof (removed_frame h1 _ (i, p) h2 HInv1 Hq Hrem) as Hfr2.
  pose proof (removed_Permutation h1 _ (i, p) h2 Hcoh1 Hq Hrem) as Hperm2.
  pose proof (push_Permutation h (i, p) h1 Hcoh Hneg Hpl) as Hperm1.
  pose proof (removed_membership h1 _ (i, p) h2 Hcoh1 Hq Hmem1 Hrem) as Hmem2.
  destruct Hrem as (Hsz2 & Hcoh2 & _ & Hpost & _). simpl in Hpost.
  exists h1, h2. split_and!; try done.
  - rewrite Hperm1 in Hperm2. symmetry. by apply Permutation_cons_inv in Hperm2.
  - lia.
  - by apply state_of_index.
  - intros j Hne. destruct (Hfr2 j Hne) as [-> ->]. by apply Hfr1.
Qed.

End BinHeap.

(** * The heap over integer items and priorities, ordered by [<]

    The default instantiation, [BinHeap<int, IntMap, std::less<int>>],
    on which the statements above are exercised. *)

#[global] Instance Z_ltb_StrictWeak : StrictWeak Z.ltb.
Proof. split; intros; lia. Qed.

(** Evaluates one precondition on a concrete heap. *)
Ltac check_pre :=
  first
    [ exact I
    | split; check_pre
    | let H := fresh in
      intros ? H; vm_compute in H; injection H as <-; reflexivity
    | vm_compute; reflexivity
    | vm_compute; discriminate ].

(** Walks a concrete command sequence, evaluating each step. *)
Ltac check_run :=
  repeat (eapply run_ok_cons; [discriminate | check_pre | reflexivity | ]);
  exact I.

Lemma heap_order_invariant_witness :
  ∃ h : @BinHeap Z Z,
    run Z.ltb (0, 0)
      [Push 2 5; Push 7 3; Push 4 4; Pop; Decrease 2 1; Replace 4 9;
       SetPrio 6 0; Erase 9] init = Some h ∧
    reachable Z.ltb (0, 0) h ∧
    _data h = [(6, 0); (2, 1)] ∧
    heap_order Z.ltb h.
Proof.
  destruct (run_ok_reachable Z.ltb (0, 0)
              [Push 2 5; Push 7 3; Push 4 4; Pop; Decrease 2 1; Replace 4 9;
               SetPrio 6 0; Erase 9] init)
    as (h & Hrun & Hreach); [apply reach_init | check_run |].
  exists h. split; [exact Hrun|]. split; [exact Hreach|].
  split; [by vm_compute in Hrun; injection Hrun as <-|].
  exact (proj1 (heap_order_invariant Z.ltb (0, 0) h Hreach)).
Defined.

Lemma index_coherence_invariant_witness :
  ∃ h : @BinHeap Z Z,
    run Z.ltb (0, 0) [Push 2 5; Push 7 3; Push 4 4; Push 1 8] init = Some h ∧
    Inv h ∧ pre Z.ltb h (Erase 7) ∧
    ∃ h', exec Z.ltb (0, 0) (Erase 7) h = Some h' ∧
      _data h' = [(4, 4); (2, 5); (1, 8)] ∧
      coherent h' ∧
      (∀ i, occupies h' i →
         ∃ q, priorityOf h' i = Some q ∧ scan (_data h') i = Some q).
Proof.
  destruct (run_ok_Inv Z.ltb (0, 0)
              [Push 2 5; Push 7 3; Push 4 4; Push 1 8] init)
    as (h & Hrun & HInv); [apply Inv_init | check_run |].
  assert (pre Z.ltb h (Erase 7)) as Hpre.
  { vm_compute in Hrun. injection Hrun as <-. reflexivity. }
  exists h. split; [exact Hrun|]. split; [exact HInv|]. split; [exact Hpre|].
  destruct (index_coherence_invariant Z.ltb (0, 0) h (Erase 7) HInv Hpre)
    as (h' & Hex & Hcoh & Hscan).
  exists h'. split; [exact Hex|]. split; [|split; [exact Hcoh | exact Hscan]].
  vm_compute in Hrun. injection Hrun as <-.
  vm_compute in Hex. injection Hex as <-. reflexivity.
Defined.

Lemma bubble_down_prefers_right_witness :
  let h : @BinHeap Z Z :=
    mkBinHeap [(0, 1); (1, 2); (2, 2); (3, 3)] (λ _, -1) in
  second_child 0 < 3 ∧
  data_at (_data h) (second_child 0 - 1) = Some (1, 2) ∧
  data_at (_data h) (second_child 0) = Some (2, 2) ∧
  less Z.ltb (1, 2) (2, 2) = false ∧ less Z.ltb (2, 2) (1, 2) = false ∧
  pick_child Z.ltb (1, 2) (2, 2) (second_child 0) = second_child 0.
Proof.
  intros h.
  assert (second_child 0 < 3) as H1 by (unfold second_child; lia).
  assert (data_at (_data h) (second_child 0 - 1) = Some (1, 2)) as H2
    by reflexivity.
  assert (data_at (_data h) (second_child 0) = Some (2, 2)) as H3
    by reflexivity.
  split; [exact H1|]. split; [exact H2|]. split; [exact H3|].
  split; [reflexivity|]. split; [reflexivity|].
  apply (bubble_down_prefers_right Z.ltb 3 h 0 (3, 3) 3 (1, 2) (2, 2)
           H1 H2 H3); reflexivity.
Defined.

(** C3, as the specification words it, fails: with the root's children
    tied at priority 2, [bubble_down] looks at the right child, and [pop]
    brings the right child's item 2 to the root, not the left child's
    item 1. *)
Lemma tie_goes_to_right_child :
  ¬ left_on_tie Z.ltb ((1, 2) : Z * Z) (2, 2) (second_child 0) ∧
  (run Z.ltb (0, 0) [Push 0 1; Push 1 2; Push 2 2; Push 3 3] init
     ≫= λ h, Some (_data h)) = Some [(0, 1); (1, 2); (2, 2); (3, 3)] ∧
  (run Z.ltb (0, 0) [Push 0 1; Push 1 2; Push 2 2; Push 3 3; Pop] init
     ≫= λ h, Some (_data h)) = Some [(2, 2); (1, 2); (3, 3)] ∧
  (run Z.ltb (0, 0) [Push 0 1; Push 1 2; Push 2 2; Push 3 3; Pop] init
     ≫= top) = Some 2.
Proof.
  split; [|by vm_compute].
  intros [_ Htie]. specialize (Htie eq_refl eq_refl). vm_compute in Htie.
  discriminate.
Qed.

Lemma erase_restores_order_witness :
  ∃ h : @BinHeap Z Z,
    run Z.ltb (0, 0)
      [Push 0 1; Push 1 10; Push 2 2; Push 3 11; Push 4 12; Push 5 3] init
    = Some h ∧
    _data h = [(0, 1); (1, 10); (2, 2); (3, 11); (4, 12); (5, 3)] ∧
    Inv h ∧ heap_order Z.ltb h ∧ state h 3 = Some IN_HEAP ∧
    ∃ h', erase Z.ltb h 3 = Some h' ∧
      _data h' = [(0, 1); (5, 3); (2, 2); (1, 10); (4, 12)] ∧
      state h' 3 = Some POST_HEAP ∧ heap_order Z.ltb h' ∧ Inv h'.
Proof.
  destruct (run_ok_reachable Z.ltb (0, 0)
              [Push 0 1; Push 1 10; Push 2 2; Push 3 11; Push 4 12; Push 5 3]
              init)
    as (h & Hrun & Hreach); [apply reach_init | check_run |].
  destruct (reachable_invariants Z.ltb (0, 0) h Hreach) as [HInv Hho].
  assert (state h 3 = Some IN_HEAP) as Hin.
  { vm_compute in Hrun. injection Hrun as <-. reflexivity. }
  exists h. split; [exact Hrun|].
  split; [by vm_compute in Hrun; injection Hrun as <-|].
  split; [exact HInv|]. split; [exact Hho|]. split; [exact Hin|].
  destruct (erase_restores_order Z.ltb h 3 HInv Hho Hin)
    as (h' & Her & _ & Hst & _ & Hho' & HInv' & _).
  exists h'. split; [exact Her|].
  split; [|split; [exact Hst | split; [exact Hho' | exact HInv']]].
  vm_compute in Hrun. injection Hrun as <-.
  vm_compute in Her. injection Her as <-. reflexivity.
Defined.

Lemma sorted_extraction_witness :
  let l : list (Z * Z) := [(0, 3); (1, 1); (2, 2)] in
  let m : Z → Z := λ _, State_to_int PRE_HEAP in
  NoDup l.*1 ∧ (∀ p, p ∈ l → m p.1 = State_to_int PRE_HEAP) ∧
  ∃ h out h',
    push_all Z.ltb (0, 0) l (mkBinHeap [] m) = Some h ∧
    drain Z.ltb (length l) h = Some (out, h') ∧
    out = [(1, 1); (2, 2); (0, 3)] ∧
    out ≡ₚ l ∧ Sorted (prio_le Z.ltb) out.*2 ∧ empty h' = true.
Proof.
  intros l m.
  assert (NoDup l.*1) as Hnd
    by (apply (bool_decide_unpack _); vm_compute; exact I).
  assert (∀ p, p ∈ l → m p.1 = State_to_int PRE_HEAP) as Hpre
    by (intros p _; reflexivity).
  split; [exact Hnd|]. split; [exact Hpre|].
  destruct (sorted_extraction Z.ltb (0, 0) l m Hnd Hpre)
    as (h & out & h' & Hpush & Hdr & Hperm & Hs & _ & Hemp).
  exists h, out, h'. split; [exact Hpush|]. split; [exact Hdr|].
  split; [|split; [exact Hperm | split; [exact Hs | exact Hemp]]].
  vm_compute in Hpush. injection Hpush as <-.
  vm_compute in Hdr. by injection Hdr as <- _.
Defined.

Lemma set_is_upsert_witness :
  let os : list (@Op Z Z) :=
    [Push 2 5; Push 7 3; Push 4 4; Push 1 8;
     Decrease 1 2; Increase 7 9; Decrease 4 4; Increase 2 5] in
  Inv (@init Z Z) ∧ heap_order Z.ltb (@init Z Z) ∧
  run_ok Z.ltb (0, 0) os init ∧
  ∃ h' out,
    run Z.ltb (0, 0) os init = Some h' ∧
    run Z.ltb (0, 0) (via_set <$> os) init = Some h' ∧
    out = [(1, 2); (4, 4); (2, 5); (7, 9)] ∧
    (run Z.ltb (0, 0) os init ≫= pop_sequence Z.ltb (length (_data h')))
      = Some out ∧
    (run Z.ltb (0, 0) (via_set <$> os) init
       ≫= pop_sequence Z.ltb (length (_data h'))) = Some out.
Proof.
  intros os.
  assert (heap_order Z.ltb (@init Z Z)) as Hho.
  { intros k e ep Hk. unfold size in Hk. simpl in Hk. lia. }
  assert (run_ok Z.ltb (0, 0) os init) as Hok by (subst os; check_run).
  split; [apply Inv_init|]. split; [exact Hho|]. split; [exact Hok|].
  destruct (proj2 (proj2 (set_is_upsert Z.ltb (0, 0))) init os
              (Inv_init) Hho Hok) as (h' & out & Hrun & Hset & Hp1 & Hp2).
  exists h', out. split; [exact Hrun|]. split; [exact Hset|].
  split; [|split; [exact Hp1 | exact Hp2]].
  vm_compute in Hrun. injection Hrun as <-.
  vm_compute in Hp1. by injection Hp1 as <-.
Defined.

Lemma replace_renames_witness :
  ∃ h : @BinHeap Z Z,
    run Z.ltb (0, 0) [Push 7 5] init = Some h ∧
    Inv h ∧ state h 7 = Some IN_HEAP ∧ state h 8 ≠ Some IN_HEAP ∧
    ∃ h', replace h 7 8 = Some h' ∧
      top h' = Some 8 ∧ prio h' = Some 5 ∧ priorityOf h' 8 = Some 5 ∧
      state h' 8 = Some IN_HEAP ∧ state h' 7 = Some PRE_HEAP ∧
      (_data h').*2 = (_data h).*2.
Proof.
  destruct (run_ok_Inv Z.ltb (0, 0) [Push 7 5] init)
    as (h & Hrun & HInv); [apply Inv_init | check_run |].
  assert (state h 7 = Some IN_HEAP) as Hi.
  { vm_compute in Hrun. injection Hrun as <-. reflexivity. }
  assert (state h 8 ≠ Some IN_HEAP) as Hj.
  { vm_compute in Hrun. injection Hrun as <-. vm_compute. discriminate. }
  exists h. split; [exact Hrun|]. split; [exact HInv|].
  split; [exact Hi|]. split; [exact Hj|].
  destruct (replace_renames h 7 8 HInv Hi Hj)
    as (h' & q & Hrep & _ & _ & _ & _ & _ & _ & Hpr & _ & _ & _).
  exists h'. split; [exact Hrep|].
  vm_compute in Hrun. injection Hrun as <-.
  vm_compute in Hrep. injection Hrep as <-.
  split_and!; reflexivity.
Defined.

Lemma state_transitions_witness :
  ∃ h : @BinHeap Z Z,
    run Z.ltb (0, 0) [Push 2 5; Push 7 3; Push 4 4] init = Some h ∧
    Inv h ∧ heap_order Z.ltb h ∧
    state h 1 = Some PRE_HEAP ∧
    (∃ h', push Z.ltb (0, 0) h (1, 8) = Some h' ∧
           state h' 1 = Some IN_HEAP) ∧
    (∃ h', pop Z.ltb h = Some h' ∧ state h' 7 = Some POST_HEAP) ∧
    (∃ h', erase Z.ltb h 4 = Some h' ∧ state h' 4 = Some POST_HEAP) ∧
    (∃ h', set_state Z.ltb h 4 PRE_HEAP = Some h' ∧
           state h' 4 = Some PRE_HEAP ∧ Inv h' ∧ heap_order Z.ltb h') ∧
    set_state Z.ltb h 4 IN_HEAP = Some h.
Proof.
  destruct (run_ok_reachable Z.ltb (0, 0) [Push 2 5; Push 7 3; Push 4 4] init)
    as (h & Hrun & Hreach); [apply reach_init | check_run |].
  destruct (reachable_invariants Z.ltb (0, 0) h Hreach) as [HInv Hho].
  destruct (state_transitions Z.ltb (0, 0))
    as (Hpre & _ & Hnop & Hrest).
  destruct (Hrest h HInv Hho) as (Hpush & Hpop & Her & Hset).
  assert (_iim h 1 = State_to_int PRE_HEAP ∧ top h = Some 7 ∧
          state h 4 = Some IN_HEAP) as (H1 & H7 & H4).
  { vm_compute in Hrun. injection Hrun as <-. by vm_compute. }
  exists h. split; [exact Hrun|]. split; [exact HInv|]. split; [exact Hho|].
  split; [exact (Hpre h 1 H1)|].
  split; [apply Hpush; rewrite H1; by vm_compute|].
  split; [exact (Hpop 7 H7)|]. split; [exact (Her 4 H4)|].
  split; [|exact (Hnop h 4)].
  destruct (Hset 4 PRE_HEAP H4 ltac:(discriminate))
    as (h1 & h' & _ & Hs & _ & Hst & HInv' & Hho').
  by exists h'.
Defined.

Lemma priority_update_frame_witness :
  ∃ h : @BinHeap Z Z,
    run Z.ltb (0, 0) [Push 2 5; Push 7 3; Push 4 4; Push 1 8] init = Some h ∧
    _data h = [(7, 3); (2, 5); (4, 4); (1, 8)] ∧
    Inv h ∧ state h 1 = Some IN_HEAP ∧
    ∃ h', exec Z.ltb (0, 0) (SetPrio 1 0) h = Some h' ∧
      _data h' = [(1, 0); (7, 3); (4, 4); (2, 5)] ∧
      (∀ j, state h' j = state h j) ∧
      priorityOf h' 1 = Some 0 ∧
      (∀ j, j ≠ 1 → priorityOf h' j = priorityOf h j) ∧
      _data h' ≡ₚ <[Z.to_nat (_iim h 1) := (1, 0)]> (_data h).
Proof.
  destruct (run_ok_Inv Z.ltb (0, 0)
              [Push 2 5; Push 7 3; Push 4 4; Push 1 8] init)
    as (h & Hrun & HInv); [apply Inv_init | check_run |].
  assert (state h 1 = Some IN_HEAP) as Hin.
  { vm_compute in Hrun. injection Hrun as <-. reflexivity. }
  exists h. split; [exact Hrun|].
  split; [by vm_compute in Hrun; injection Hrun as <-|].
  split; [exact HInv|]. split; [exact Hin|].
  destruct (priority_update_frame Z.ltb (0, 0) h 1 0 (SetPrio 1 0) HInv Hin)
    as (h' & Hex & _ & Hst & Hp & Hfr & Hperm); [by right; right|].
  exists h'. split; [exact Hex|].
  split; [|split; [exact Hst | split; [exact Hp | split;
                                         [exact Hfr | exact Hperm]]]].
  vm_compute in Hrun. injection Hrun as <-.
  vm_compute in Hex. injection Hex as <-. reflexivity.
Defined.

(** ** The further properties on the integer heap *)

Lemma top_is_minimum_witness :
  ∃ h : @BinHeap Z Z,
    run Z.ltb (0, 0) [Push 2 5; Push 7 3; Push 4 4] init = Some h ∧
    coherent h ∧ heap_order Z.ltb h ∧ top h = Some 7 ∧ prio h = Some 3 ∧
    priorityOf h 7 = Some 3 ∧
    (∀ e, e ∈ _data h → Z.ltb e.2 3 = false).
Proof.
  destruct (run_ok_reachable Z.ltb (0, 0) [Push 2 5; Push 7 3; Push 4 4] init)
    as (h & Hrun & Hreach); [apply reach_init | check_run |].
  destruct (reachable_invariants Z.ltb (0, 0) h Hreach) as [[Hcoh _] Hho].
  assert (top h = Some 7 ∧ prio h = Some 3) as [Ht Hp].
  { vm_compute in Hrun. injection Hrun as <-. by vm_compute. }
  destruct (top_is_minimum Z.ltb h 7 3 Hcoh Hho Ht Hp) as (H1 & H2 & _).
  exists h. by split_and!.
Defined.

Lemma in_heap_iff_stored_witness :
  ∃ h : @BinHeap Z Z,
    run Z.ltb (0, 0) [Push 2 5; Push 7 3; Push 4 4; Pop] init = Some h ∧
    reachable Z.ltb (0, 0) h ∧
    (_data h).*1 = [4; 2] ∧ NoDup (_data h).*1 ∧
    (∀ i, state h i = Some IN_HEAP ↔ i ∈ (_data h).*1).
Proof.
  destruct (run_ok_reachable Z.ltb (0, 0)
              [Push 2 5; Push 7 3; Push 4 4; Pop] init)
    as (h & Hrun & Hreach); [apply reach_init | check_run |].
  destruct (in_heap_iff_stored Z.ltb (0, 0) h Hreach) as (H1 & H2 & _).
  exists h. split_and!; try done.
  vm_compute in Hrun. by injection Hrun as <-.
Defined.

Lemma index_values_are_states_witness :
  ∃ h : @BinHeap Z Z,
    run Z.ltb (0, 0) [Push 2 5; Push 7 3; Push 4 4; Pop] init = Some h ∧
    reachable Z.ltb (0, 0) h ∧
    state h 7 = Some POST_HEAP ∧
    ∀ i, (_iim h i = State_to_int PRE_HEAP ∨
          _iim h i = State_to_int POST_HEAP ∨
          0 <= _iim h i < size h) ∧
         ∃ st, state h i = Some st.
Proof.
  destruct (run_ok_reachable Z.ltb (0, 0)
              [Push 2 5; Push 7 3; Push 4 4; Pop] init)
    as (h & Hrun & Hreach); [apply reach_init | check_run |].
  pose proof (index_values_are_states Z.ltb (0, 0) h Hreach) as Hall.
  exists h. split_and!; try done.
  vm_compute in Hrun. by injection Hrun as <-.
Defined.

Lemma push_adds_entry_witness :
  ∃ h : @BinHeap Z Z,
    run Z.ltb (0, 0) [Push 2 5; Push 7 3; Push 4 4] init = Some h ∧
    Inv h ∧ _iim h 1 < 0 ∧
    ∃ h', push Z.ltb (0, 0) h (1, 0) = Some h' ∧
      _data h' = [(1, 0); (7, 3); (4, 4); (2, 5)] ∧
      _data h' ≡ₚ (1, 0) :: _data h ∧ priorityOf h' 1 = Some 0 ∧
      ∀ j, j ≠ 1 → state h' j = state h j ∧ priorityOf h' j = priorityOf h j.
Proof.
  destruct (run_ok_Inv Z.ltb (0, 0) [Push 2 5; Push 7 3; Push 4 4] init)
    as (h & Hrun & HInv); [apply Inv_init | check_run |].
  assert (_iim h 1 < 0) as Hneg.
  { vm_compute in Hrun. injection Hrun as <-. by vm_compute. }
  destruct (push_adds_entry Z.ltb (0, 0) h 1 0 HInv Hneg)
    as (h' & Hpush & _ & Hperm & _ & Hp & Hfr).
  exists h. split_and!; try done. exists h'. split_and!; try done.
  vm_compute in Hrun. injection Hrun as <-.
  vm_compute in Hpush. by injection Hpush as <-.
Defined.

Lemma pop_removes_top_witness :
  ∃ h : @BinHeap Z Z,
    run Z.ltb (0, 0) [Push 2 5; Push 7 3; Push 4 4] init = Some h ∧
    Inv h ∧ top h = Some 7 ∧ prio h = Some 3 ∧
    ∃ h', pop Z.ltb h = Some h' ∧ _data h' = [(4, 4); (2, 5)] ∧
      _data h ≡ₚ (7, 3) :: _data h' ∧ priorityOf h' 7 = None ∧
      ∀ j, j ≠ 7 → state h' j = state h j ∧ priorityOf h' j = priorityOf h j.
Proof.
  destruct (run_ok_Inv Z.ltb (0, 0) [Push 2 5; Push 7 3; Push 4 4] init)
    as (h & Hrun & HInv); [apply Inv_init | check_run |].
  assert (top h = Some 7 ∧ prio h = Some 3) as [Ht Hp].
  { vm_compute in Hrun. injection Hrun as <-. by vm_compute. }
  destruct (pop_removes_top Z.ltb h 7 3 HInv Ht Hp)
    as (h' & Hpop & _ & Hperm & _ & Hnone & Hfr).
  exists h. split_and!; try done. exists h'. split_and!; try done.
  vm_compute in Hrun. injection Hrun as <-.
  vm_compute in Hpop. by injection Hpop as <-.
Defined.

Lemma erase_removes_item_witness :
  ∃ h : @BinHeap Z Z,
    run Z.ltb (0, 0) [Push 2 5; Push 7 3; Push 4 4] init = Some h ∧
    Inv h ∧ state h 2 = Some IN_HEAP ∧ priorityOf h 2 = Some 5 ∧
    ∃ h', erase Z.ltb h 2 = Some h' ∧ _data h' = [(7, 3); (4, 4)] ∧
      _data h ≡ₚ (2, 5) :: _data h' ∧ priorityOf h' 2 = None ∧
      ∀ j, j ≠ 2 → state h' j = state h j ∧ priorityOf h' j = priorityOf h j.
Proof.
  destruct (run_ok_Inv Z.ltb (0, 0) [Push 2 5; Push 7 3; Push 4 4] init)
    as (h & Hrun & HInv); [apply Inv_init | check_run |].
  assert (state h 2 = Some IN_HEAP ∧ priorityOf h 2 = Some 5) as [Hs Hp].
  { vm_compute in Hrun. injection Hrun as <-. by vm_compute. }
  destruct (erase_removes_item Z.ltb h 2 5 HInv Hs Hp)
    as (h' & Her & _ & Hperm & _ & Hnone & Hfr).
  exists h. split_and!; try done. exists h'. split_and!; try done.
  vm_compute in Hrun. injection Hrun as <-.
  vm_compute in Her. by injection Her as <-.
Defined.

Lemma set_stores_witness :
  ∃ h : @BinHeap Z Z,
    run Z.ltb (0, 0) [Push 2 5; Push 7 3; Push 4 4; Pop] init = Some h ∧
    Inv h ∧ state h 7 = Some POST_HEAP ∧
    ∃ h', set Z.ltb (0, 0) h 7 1 = Some h' ∧
      _data h' = [(7, 1); (2, 5); (4, 4)] ∧
      state h' 7 = Some IN_HEAP ∧ priorityOf h' 7 = Some 1 ∧ Inv h'.
Proof.
  destruct (run_ok_Inv Z.ltb (0, 0) [Push 2 5; Push 7 3; Push 4 4; Pop] init)
    as (h & Hrun & HInv); [apply Inv_init | check_run |].
  destruct (set_stores Z.ltb (0, 0) h 7 1 HInv)
    as (h' & Hset & Hst & Hp & _ & _ & HInv').
  exists h. split_and!; try done.
  { vm_compute in Hrun. by injection Hrun as <-. }
  exists h'. split_and!; try done.
  vm_compute in Hrun. injection Hrun as <-.
  vm_compute in Hset. by injection Hset as <-.
Defined.

Lemma bubble_up_rises_witness :
  let h : @BinHeap Z Z :=
    mkBinHeap [(0, 1); (1, 10); (2, 2); (3, 11)] (λ _, -1) in
  0 <= 3 < size h ∧
  ∃ h' k, bubble_up Z.ltb h 3 (9, 5) = Some (h', k) ∧ k = 1 ∧
    _data h' = [(0, 1); (9, 5); (2, 2); (1, 10)] ∧
    0 <= k <= 3 ∧ data_at (_data h') k = Some (9, 5) ∧ _iim h' 9 = k.
Proof.
  intros h. assert (0 <= 3 < size h) as Hr by (by vm_compute).
  split; [exact Hr|].
  destruct (proj1 (bubble_up_rises Z.ltb h 3 (9, 5) Hr))
    as (h' & k & Hup & Hk & _ & Hp & Hi & _).
  exists h', k. split_and!; try done;
    vm_compute in Hup; by injection Hup as <- <-.
Defined.

Lemma bubble_down_sinks_witness :
  let h : @BinHeap Z Z :=
    mkBinHeap [(0, 1); (1, 10); (2, 2); (3, 11)] (λ _, -1) in
  0 <= 0 < 3 ∧ 3 <= size h ∧
  ∃ h' k, bubble_down Z.ltb h 0 (3, 11) 3 = Some (h', k) ∧ k = 2 ∧
    _data h' = [(2, 2); (1, 10); (3, 11); (3, 11)] ∧
    0 <= k < 3 ∧ data_at (_data h') k = Some (3, 11) ∧ _iim h' 3 = k.
Proof.
  intros h. assert (3 <= size h) as Hlen by (by vm_compute).
  split; [lia|]. split; [exact Hlen|].
  destruct (proj1 (bubble_down_sinks Z.ltb h 0 (3, 11) 3 ltac:(lia) Hlen))
    as (h' & k & Hdn & Hk & _ & Hp & Hi & _).
  exists h', k. split_and!; try done;
    vm_compute in Hdn; by injection Hdn as <- <-.
Defined.

Lemma replace_involutive_witness :
  let h : @BinHeap Z Z :=
    mkBinHeap [(5, 1); (6, 2)]
              (λ x, if decide (x = 5) then 0 else if decide (x = 6) then 1
                    else -1) in
  data_at (_data h) (_iim h 5) = Some (5, 1) ∧
  ∃ h1 h2, replace h 5 8 = Some h1 ∧ replace h1 8 5 = Some h2 ∧
    _data h1 = [(8, 1); (6, 2)] ∧
    _data h2 = _data h ∧ ∀ x, _iim h2 x = _iim h x.
Proof.
  intros h. assert (data_at (_data h) (_iim h 5) = Some (5, 1)) as Hq
    by reflexivity.
  split; [exact Hq|].
  destruct (replace_involutive h 5 8 1 Hq) as (h1 & h2 & H1 & H2 & Hd & Hm).
  exists h1, h2. split_and!; try done.
  vm_compute in H1. by injection H1 as <-.
Defined.

Lemma clear_leaves_stale_items_witness :
  ∃ h : @BinHeap Z Z,
    run Z.ltb (0, 0) [Push 2 5; Push 7 3] init = Some h ∧
    0 <= _iim h 2 ∧
    state (clear h) 2 = Some IN_HEAP ∧
    erase Z.ltb (clear h) 2 = None ∧
    set_state Z.ltb (clear h) 2 PRE_HEAP = None.
Proof.
  destruct (run_ok_Inv Z.ltb (0, 0) [Push 2 5; Push 7 3] init)
    as (h & Hrun & _); [apply Inv_init | check_run |].
  assert (0 <= _iim h 2) as Hi.
  { vm_compute in Hrun. injection Hrun as <-. by vm_compute. }
  destruct (clear_leaves_stale_items Z.ltb (0, 0) h 2 0 Hi)
    as (Hst & _ & Her & _ & _ & _ & Hset).
  exists h. split_and!; try done. by apply Hset.
Defined.

Lemma reset_all_clears_witness :
  ∃ h : @BinHeap Z Z,
    run Z.ltb (0, 0) [Push 2 5; Push 7 3; Push 4 4] init = Some h ∧
    Inv h ∧ PRE_HEAP ≠ IN_HEAP ∧
    ∃ h', reset_all Z.ltb [7; 9; 2; 4] PRE_HEAP h = Some h' ∧
      _data h' = [] ∧ Inv h' ∧
      (∀ i, i ∈ [7; 9; 2; 4] → state h' i = Some PRE_HEAP).
Proof.
  destruct (run_ok_Inv Z.ltb (0, 0) [Push 2 5; Push 7 3; Push 4 4] init)
    as (h & Hrun & HInv); [apply Inv_init | check_run |].
  assert (PRE_HEAP ≠ IN_HEAP) as Hst by discriminate.
  destruct (reset_all_clears Z.ltb [7; 9; 2; 4] PRE_HEAP h HInv Hst)
    as (h' & Hrs & HInv' & _ & Hin & _ & _ & _).
  exists h. split_and!; try done. exists h'. split_and!; try done.
  vm_compute in Hrun. injection Hrun as <-.
  vm_compute in Hrs. by injection Hrs as <-.
Defined.

Lemma drain_sorts_any_heap_witness :
  ∃ h : @BinHeap Z Z,
    run Z.ltb (0, 0)
      [Push 2 5; Push 7 3; Push 4 4; Push 1 8; Increase 7 9; Erase 4;
       SetPrio 6 1] init = Some h ∧
    Inv h ∧ heap_order Z.ltb h ∧
    ∃ out h', drain Z.ltb (length (_data h)) h = Some (out, h') ∧
      out = [(6, 1); (2, 5); (1, 8); (7, 9)] ∧
      out ≡ₚ _data h ∧ StronglySorted (prio_le Z.ltb) out.*2 ∧
      empty h' = true ∧
      (∀ e, e ∈ out → state h' e.1 = Some POST_HEAP).
Proof.
  destruct (run_ok_reachable Z.ltb (0, 0)
      [Push 2 5; Push 7 3; Push 4 4; Push 1 8; Increase 7 9; Erase 4;
       SetPrio 6 1] init)
    as (h & Hrun & Hreach); [apply reach_init | check_run |].
  destruct (reachable_invariants Z.ltb (0, 0) h Hreach) as [HInv Hho].
  destruct (drain_sorts_any_heap Z.ltb h HInv Hho)
    as (out & h' & Hdr & Hperm & Hs & Hemp & Hpost & _).
  exists h. split_and!; try done. exists out, h'. split_and!; try done.
  vm_compute in Hrun. injection Hrun as <-.
  vm_compute in Hdr. by injection Hdr as <- _.
Defined.

Lemma equivalent_priority_keeps_slots_witness :
  ∃ h : @BinHeap Z Z,
    run Z.ltb (0, 0) [Push 2 5; Push 7 3; Push 4 4; Push 1 8] init = Some h ∧
    Inv h ∧ heap_order Z.ltb h ∧
    data_at (_data h) (_iim h 2) = Some (2, 5) ∧
    ∃ h', set Z.ltb (0, 0) h 2 5 = Some h' ∧
      decrease Z.ltb h 2 5 = Some h' ∧ increase Z.ltb h 2 5 = Some h' ∧
      _data h' = _data h ∧ ∀ x, _iim h' x = _iim h x.
Proof.
  destruct (run_ok_reachable Z.ltb (0, 0)
              [Push 2 5; Push 7 3; Push 4 4; Push 1 8] init)
    as (h & Hrun & Hreach); [apply reach_init | check_run |].
  destruct (reachable_invariants Z.ltb (0, 0) h Hreach) as [HInv Hho].
  assert (data_at (_data h) (_iim h 2) = Some (2, 5)) as Hq.
  { vm_compute in Hrun. injection Hrun as <-. reflexivity. }
  destruct (equivalent_priority_keeps_slots Z.ltb (0, 0) h 2 5 5 HInv Hho Hq
              eq_refl eq_refl) as (h' & Hset & Hdec & Hinc & Hd & Hm).
  exists h. split_and!; try done. exists h'. split_and!; try done.
  rewrite Hd. vm_compute in Hrun. by injection Hrun as <-.
Defined.


Lemma pop_is_erase_top_witness :
  ∃ h : @BinHeap Z Z,
    run Z.ltb (0, 0) [Push 2 5; Push 7 3; Push 4 4; Push 1 8] init = Some h ∧
    coherent h ∧ top h = Some 7 ∧
    ∃ h1 h2, pop Z.ltb h = Some h1 ∧ erase Z.ltb h 7 = Some h2 ∧
      _data h1 = [(4, 4); (2, 5); (1, 8)] ∧
      _data h1 = _data h2 ∧ ∀ x, _iim h1 x = _iim h2 x.
Proof.
  destruct (run_ok_Inv Z.ltb (0, 0)
              [Push 2 5; Push 7 3; Push 4 4; Push 1 8] init)
    as (h & Hrun & [Hcoh _]); [apply Inv_init | check_run |].
  assert (top h = Some 7) as Ht.
  { vm_compute in Hrun. injection Hrun as <-. reflexivity. }
  destruct (pop_is_erase_top Z.ltb h 7 Hcoh Ht) as (h1 & h2 & H1 & H2 & Hd & Hm).
  exists h. split_and!; try done. exists h1, h2. split_and!; try done.
  vm_compute in Hrun. injection Hrun as <-.
  vm_compute in H1. by injection H1 as <-.
Defined.

Lemma push_then_erase_witness :
  ∃ h : @BinHeap Z Z,
    run Z.ltb (0, 0) [Push 2 5; Push 7 3; Push 4 4] init = Some h ∧
    Inv h ∧ _iim h 1 < 0 ∧
    ∃ h1 h2, push Z.ltb (0, 0) h (1, 0) = Some h1 ∧
      erase Z.ltb h1 1 = Some h2 ∧
      _data h2 ≡ₚ _data h ∧ state h2 1 = Some POST_HEAP ∧ Inv h2.
Proof.
  destruct (run_ok_Inv Z.ltb (0, 0) [Push 2 5; Push 7 3; Push 4 4] init)
    as (h & Hrun & HInv); [apply Inv_init | check_run |].
  assert (_iim h 1 < 0) as Hneg.
  { vm_compute in Hrun. injection Hrun as <-. by vm_compute. }
  destruct (push_then_erase Z.ltb (0, 0) h 1 0 HInv Hneg)
    as (h1 & h2 & H1 & H2 & Hperm & _ & Hst & _ & HInv2).
  exists h. split_and!; try done. by exists h1, h2.
Defined.
